(** * NOW: pose parsing, spoof parameters, say rendering, surfaces, consumables

    A shallow embedding of parts of the NOW game modules:

    - [CmdPose.parse], [CmdPose.func]   (NOW/commands/command.py)
    - [CmdSay.func] with [parse_say], [CmdOoc.func], [CmdSpoof.func]
      (commands/say.py)
    - [usage] and [INLINEFUNC_ENABLED] (server/conf/inlinefuncs.py, settings.py)
    - [Object.at_before_move], [surface_put], [surface_off], [set_detail],
      [return_detail], the sorting loop of [return_appearance],
      [Consumable.consume], [drink], [eat]
      (NOWMU/NOW/typeclasses/objects.py)

    The modules are Python 2 code (they call [unicode] and the builtin
    [reduce]); text is modelled as a list of code points, integers as [Z],
    attribute stores and dictionaries as finite maps, raised exceptions as
    an explicit result type.  Definitions come first, facts second. *)

From Stdlib Require Import ZArith NArith List String Ascii Bool Lia.
From stdpp Require Import base option list strings gmap.

Set Default Proof Using "Type".
Local Open Scope N_scope.

(* ===================================================================== *)
(** * Part I: definitions                                                 *)
(* ===================================================================== *)

(** ** Python values used by the commands *)

Module Py.

(** A [unicode] object: the list of its code points. *)
Abbreviation ustring := (list N).

(** An ASCII literal of the source as a [unicode] object. *)
Definition u (s : string) : ustring :=
  map N_of_ascii (list_ascii_of_string s).

Inductive exn : Type :=
| ValueError
| IndexError
| TypeError
| AttributeError
| OverflowError
| MemoryError.

(** The outcome of evaluating an expression that may raise. *)
Inductive result (A : Type) : Type :=
| Ok (a : A)
| Raise (e : exn).

Arguments Ok {A} a.
Arguments Raise {A} e.

Definition bind {A B : Type} (r : result A) (k : A -> result B) : result B :=
  match r with
  | Ok a => k a
  | Raise e => Raise e
  end.

Definition returns {A : Type} (r : result A) : Prop :=
  exists a, r = Ok a.

(** [a, b = l]: unpacking into two names raises unless [l] has exactly
    two items. *)
Definition unpack2 {A : Type} (l : list A) : result (A * A) :=
  match l with
  | [a; b] => Ok (a, b)
  | _ => Raise ValueError
  end.

(** [l[i]] for a non-negative index. *)
Definition index {A : Type} (l : list A) (i : nat) : result A :=
  match nth_error l i with
  | Some a => Ok a
  | None => Raise IndexError
  end.

(** Truth value of a sequence: non-empty. *)
Definition truthy {A : Type} (l : list A) : bool :=
  match l with
  | [] => false
  | _ :: _ => true
  end.

(** [unicode.isspace] of one code point, the table of CPython 2.7
    ([_PyUnicode_IsWhitespace]). *)
Definition isspace (c : N) : bool :=
  ((0x09 <=? c) && (c <=? 0x0D)) || ((0x1C <=? c) && (c <=? 0x20))
  || (c =? 0x85) || (c =? 0xA0) || (c =? 0x1680) || (c =? 0x180E)
  || ((0x2000 <=? c) && (c <=? 0x200A))
  || (c =? 0x2028) || (c =? 0x2029) || (c =? 0x202F) || (c =? 0x205F)
  || (c =? 0x3000).

Fixpoint lstrip (s : ustring) : ustring :=
  match s with
  | [] => []
  | c :: s' => if isspace c then lstrip s' else s
  end.

Fixpoint rstrip (s : ustring) : ustring :=
  match s with
  | [] => []
  | c :: s' =>
      match rstrip s' with
      | [] => if isspace c then [] else [c]
      | r => c :: r
      end
  end.

(** [s.strip()] *)
Definition strip (s : ustring) : ustring := rstrip (lstrip s).

(** [s.split()]: the maximal runs of non-whitespace, in order. *)
Fixpoint split_ws (s : ustring) : list ustring :=
  match s with
  | [] => []
  | c :: s' =>
      if isspace c then split_ws s'
      else
        match s' with
        | [] => [[c]]
        | d :: _ =>
            if isspace d then [c] :: split_ws s'
            else
              match split_ws s' with
              | t :: ts => (c :: t) :: ts
              | [] => [[c]]
              end
        end
  end.

Definition ustring_eqb (a b : ustring) : bool := bool_decide (a = b).

(** [Some rest] when [s = sep ++ rest]. *)
Fixpoint strip_prefix (sep s : ustring) : option ustring :=
  match sep, s with
  | [], _ => Some s
  | _ :: _, [] => None
  | a :: sep', c :: s' => if a =? c then strip_prefix sep' s' else None
  end.

(** The text before and after the leftmost occurrence of [sep]. *)
Fixpoint partition (sep s : ustring) : option (ustring * ustring) :=
  match strip_prefix sep s with
  | Some rest => Some ([], rest)
  | None =>
      match s with
      | [] => None
      | c :: s' =>
          match partition sep s' with
          | Some (a, b) => Some (c :: a, b)
          | None => None
          end
      end
  end.

(** [s.split(sep, maxsplit)] for a non-empty [sep]. *)
Fixpoint splitn (sep : ustring) (maxsplit : nat) (s : ustring) : list ustring :=
  match maxsplit with
  | O => [s]
  | S k =>
      match partition sep s with
      | Some (a, b) => a :: splitn sep k b
      | None => [s]
      end
  end.

(** [s.split(sep)]: a non-empty separator cannot be cut out more than
    [len(s)] times. *)
Definition split (sep s : ustring) : list ustring :=
  splitn sep (length s) s.

(** [sep in s] *)
Definition occurs (sep s : ustring) : Prop :=
  exists a b, s = a ++ sep ++ b.

(** [a] and [b] are the text before and after the leftmost [sep] in [s]. *)
Definition first_split (sep s a b : ustring) : Prop :=
  s = a ++ sep ++ b /\
  forall a' b', s = a' ++ sep ++ b' -> (length a <= length a')%nat.

End Py.

Import Py.

#[global] Instance result_ret : MRet result := @Ok.
#[global] Instance result_bind : MBind result := fun A B k r => Py.bind r k.

(* ===================================================================== *)
(** ** NOW/commands/command.py: [CmdPose.parse]                           *)
(* ===================================================================== *)

Module Pose.

(** A handle on an in-game object, as [caller.search] returns it. *)
Definition objref : Type := positive.

(** What [parse] does to its collaborators. *)
Inductive event : Type :=
| MagnetNotice                        (* caller.msg of the glyph list *)
| CallerSearch (noun : ustring).      (* caller.search(noun, location=[caller, caller.location]) *)

(** The attributes of the command instance that [parse] reads or writes. *)
Record CmdPose : Type := MkCmdPose {
  cmdstring : ustring;
  switches : list ustring;
  args : ustring;
  verb : option ustring;
  obj : option objref
}.

(** The glyph literals of [non_space_chars].  The module is a UTF-8
    encoded Python 2 source without [unicode_literals], so each literal is
    a byte string: the bytes of its UTF-8 encoding. *)
Definition non_space_chars : list (list N) :=
  [ [0xC2; 0xAE]            (* registered sign *)
  ; [0xC2; 0xA9]            (* copyright sign *)
  ; [0xC2; 0xB0]            (* degree sign *)
  ; [0xC2; 0xB7]            (* middle dot *)
  ; [0x7E]                  (* ~ *)
  ; [0x40]                  (* @ *)
  ; [0x2D]                  (* - *)
  ; [0x27]                  (* ' *)
  ; [0xE2; 0x80; 0x99]      (* right single quotation mark *)
  ; [0x2C]                  (* , *)
  ; [0x3B]                  (* ; *)
  ; [0x3A]                  (* : *)
  ; [0x2E]                  (* . *)
  ; [0x3F]                  (* ? *)
  ; [0x21]                  (* ! *)
  ; [0xE2; 0x80; 0xA6]      (* horizontal ellipsis *)
  ].

(** [x == lit] for a [unicode] [x] and a byte string [lit]: Python 2
    decodes [lit] as ASCII, and calls the two unequal when that fails. *)
Definition unicode_eq_str (x : ustring) (lit : list N) : bool :=
  forallb (fun b => b <? 0x80) lit && ustring_eqb x lit.

(** [x in non_space_chars] *)
Definition in_non_space_chars (x : ustring) : bool :=
  existsb (unicode_eq_str x) non_space_chars.

(** The separator ['::'] *)
Definition sep : ustring := u "::".

(** Lines 649-650: if [args] is non-empty and [args[0]] is not in
    [non_space_chars], [args] becomes a space followed by [args.strip()]. *)
Definition glyph_space (args : ustring) : result ustring :=
  if truthy args then
    (c ← index args 0 ;
     if in_non_space_chars [c] then Ok args
     else Ok (u " " ++ strip args))
  else Ok args.

(** [glyph_space] never raises: its value. *)
Definition spaced (text : ustring) : ustring :=
  match text with
  | [] => []
  | c :: _ => if in_non_space_chars [c] then text else u " " ++ strip text
  end.

(** The sixteen glyphs that the literals of [non_space_chars] denote, as
    code points, and the ten of them that are ASCII. *)
Definition glyph_chars : list N :=
  [0xAE; 0xA9; 0xB0; 0xB7; 0x7E; 0x40; 0x2D; 0x27; 0x2019; 0x2C; 0x3B;
   0x3A; 0x2E; 0x3F; 0x21; 0x2026].

Definition ascii_glyphs : list N :=
  [0x7E; 0x40; 0x2D; 0x27; 0x2C; 0x3B; 0x3A; 0x2E; 0x3F; 0x21].

(** The glyph-spacing rule in the words of the specification (4.2): a
    non-empty pose text whose first character is not a glyph gets a single
    leading space, any other text is left unchanged. *)
Definition glyph_rule_spec (text : ustring) : ustring :=
  match text with
  | [] => []
  | c :: _ => if bool_decide (c ∈ glyph_chars) then text else u " " ++ text
  end.

(** The text that [parse] splits: [args], with the separator appended
    under the [try] alias (lines 637-638). *)
Definition effective_args (args : ustring) (implicit_try : bool) : ustring :=
  if implicit_try then args ++ sep else args.

(** The command instance with [args], [verb] and [obj] assigned. *)
Definition updated (self : CmdPose) (a : ustring) (v : option ustring)
    (o : option objref) : CmdPose :=
  {| cmdstring := self.(cmdstring); switches := self.(switches);
     args := a; verb := v; obj := o |}.

Section Parse.

(** The object search of the framework, [caller.search(noun, location=...)]:
    the object found, or [None]. *)
Variable search : ustring -> option objref.

(** Lines 639-648: the verb, the object and the events of the power-pose
    branch, with the new [args]. *)
Definition parse_verbnoun (args : ustring)
  : result (ustring * option ustring * option objref * list event) :=
  if (1 <? length (split sep args))%nat then
    ('(verbnoun, pose) ← unpack2 (splitn sep 1 args) ;
     let n := length (split_ws verbnoun) in
     if ((0 <? n) && (n <=? 2))%nat then
       ('(verb, noun) ←
          (if (n =? 2)%nat then unpack2 (split_ws verbnoun)
           else Ok (strip verbnoun, u "me")) ;
        Ok (pose, Some verb, search noun, [CallerSearch noun]))
     else Ok (args, None, None, []))
  else Ok (args, None, None, []).

(** Lines 634-635: the glyph notice under the [magnet] or [m] switch. *)
Definition notice (self : CmdPose) : list event :=
  if existsb (ustring_eqb (u "magnet")) self.(switches)
     || existsb (ustring_eqb (u "m")) self.(switches)
  then [MagnetNotice] else [].

(** [CmdPose.parse], after [super().parse()] has filled [switches] and
    [args]. *)
Definition parse (self : CmdPose) : result (CmdPose * list event) :=
  let args := self.(args) in
  let notice := notice self in
  let args := effective_args args (ustring_eqb self.(cmdstring) (u "try")) in
  ('(args, verb, obj, searches) ← parse_verbnoun args ;
   args ← glyph_space args ;
   Ok ({| cmdstring := self.(cmdstring); switches := self.(switches);
          args := args; verb := verb; obj := obj |},
       notice ++ searches)).

(** The nouns handed to the object search, in call order. *)
Definition searched (tr : list event) : list ustring :=
  flat_map (fun e => match e with CallerSearch n => [n] | MagnetNotice => [] end) tr.

(** The specification's view of the outcome of [parse]. *)
Record PoseDirective : Type := MkPoseDirective {
  pd_verb : option ustring;
  target_fragment : option ustring;
  pose_text : ustring
}.

Definition directive (r : CmdPose * list event) : PoseDirective :=
  {| pd_verb := r.1.(verb);
     target_fragment := head (searched r.2);
     pose_text := r.1.(args) |}.

(** The command as the dispatcher hands it to [parse]: invoked as [try]
    or as [pose]. *)
Definition invoke (args : ustring) (implicit_try : bool) : CmdPose :=
  {| cmdstring := if implicit_try then u "try" else u "pose";
     switches := []; args := args; verb := None; obj := None |}.

Definition resolve_pose (args : ustring) (implicit_try : bool) : result PoseDirective :=
  (r ← parse (invoke args implicit_try) ; Ok (directive r)).

(** The nouns that one run hands to the object search. *)
Definition search_calls (args : ustring) (implicit_try : bool) : result (list ustring) :=
  (r ← parse (invoke args implicit_try) ; Ok (searched r.2)).

End Parse.

End Pose.

(* ===================================================================== *)
(** ** commands/say.py: [CmdSay], [CmdOoc], [CmdSpoof]                    *)
(* ===================================================================== *)

Module Say.

Definition lbrace : N := 0x7B.
Definition rbrace : N := 0x7D.
Definition pipe : N := 0x7C.
Definition newline : N := 0x0A.
Definition dquote : N := 0x22.

(** [s.replace(old, new)] for a one-character [old]. *)
Definition replace_char (old : N) (new : ustring) (s : ustring) : ustring :=
  flat_map (fun c => if c =? old then new else [c]) s.

(** Modelled from the spec: [world.helpers.escape_braces], imported by
    say.py and not among the sources.  The brace escaping pass of
    section 4.3: every occurrence of a brace in the value is doubled. *)
Definition escape_braces (text : ustring) : ustring :=
  replace_char rbrace [rbrace; rbrace] (replace_char lbrace [lbrace; lbrace] text).

(** *** Placeholder substitution of a room broadcast *)

Inductive piece : Type :=
| Lit (c : N)
| Field (name : ustring).

Inductive scan_state : Type :=
| Outside
| AfterOpen
| InField (name : ustring)
| AfterClose.

(** Modelled from the spec: the named-placeholder substitution of section 3
    ([RenderRequest]), which the broadcast collaborator performs on the
    text handed to [msg_contents] together with its [mapping].  A doubled
    brace is a literal brace, [{name}] is a placeholder, any other brace
    is malformed. *)
Fixpoint scan (st : scan_state) (s : ustring) : option (list piece) :=
  match s with
  | [] => match st with Outside => Some [] | _ => None end
  | c :: s' =>
      match st with
      | Outside =>
          if c =? lbrace then scan AfterOpen s'
          else if c =? rbrace then scan AfterClose s'
          else cons (Lit c) <$> scan Outside s'
      | AfterOpen =>
          if c =? lbrace then cons (Lit lbrace) <$> scan Outside s'
          else if c =? rbrace then cons (Field []) <$> scan Outside s'
          else scan (InField [c]) s'
      | InField name =>
          if c =? rbrace then cons (Field name) <$> scan Outside s'
          else if c =? lbrace then None
          else scan (InField (name ++ [c])) s'
      | AfterClose =>
          if c =? rbrace then cons (Lit rbrace) <$> scan Outside s'
          else None
      end
  end.

Inductive render_error : Type :=
| Malformed
| BindingError (name : ustring).

Fixpoint substitute (mapping : gmap ustring ustring) (ps : list piece)
  : render_error + ustring :=
  match ps with
  | [] => inr []
  | Lit c :: ps' =>
      match substitute mapping ps' with
      | inr t => inr (c :: t)
      | inl e => inl e
      end
  | Field name :: ps' =>
      match mapping !! name with
      | None => inl (BindingError name)
      | Some v =>
          match substitute mapping ps' with
          | inr t => inr (v ++ t)
          | inl e => inl e
          end
      end
  end.

(** [text.format] over the keywords of [mapping] *)
Definition format (mapping : gmap ustring ustring) (text : ustring)
  : render_error + ustring :=
  match scan Outside text with
  | None => inl Malformed
  | Some ps => substitute mapping ps
  end.

(** The pieces that a text contributes wherever it stands in a message. *)
Definition reads (ps : list piece) (s : ustring) : Prop :=
  forall rest, scan Outside (s ++ rest) = app ps <$> scan Outside rest.

(** A message renders to [t] when it reads as pieces that substitute to [t]. *)
Definition renders (mapping : gmap ustring ustring) (s t : ustring) : Prop :=
  exists ps, reads ps s /\ substitute mapping ps = inr t.

Definition is_brace (c : N) : bool := (c =? lbrace) || (c =? rbrace).

(** Reading a text in which [c] is written doubled: a pair is one literal
    [c], a single [c] is live markup and is refused. *)
Fixpoint undouble (c : N) (s : ustring) : option ustring :=
  match s with
  | [] => Some []
  | x :: s' =>
      if x =? c then
        match s' with
        | y :: s'' => if y =? c then cons c <$> undouble c s'' else None
        | [] => None
        end
      else cons x <$> undouble c s'
  end.

(** *** [CmdSay.func], lines 79-92, and [CmdOoc.func], lines 122-127 *)

(** Line 80: the template [OOC] {char} says, |nQ|w%s|nQ filled with
    [escape_braces(speech)], where Q stands for the double quote. *)
Definition say_ooc_room (speech : ustring) : ustring :=
  u "[OOC] {char} says, |n" ++ [dquote] ++ u "|w" ++ escape_braces speech
    ++ u "|n" ++ [dquote].

(** Line 83: [OOC] %s says, |nQ|w%s|nQ filled with
    [char.get_display_name(here)] and [escape_braces(speech)]. *)
Definition say_ooc_inside (name speech : ustring) : ustring :=
  u "[OOC] " ++ name ++ u " says, |n" ++ [dquote] ++ u "|w"
    ++ escape_braces speech ++ u "|n" ++ [dquote].

(** Line 86: {char} %s, |nQ%s%s|nQ filled with [escape_braces(verb)],
    [escape_braces(prepend)] and [escape_braces(speech)]. *)
Definition say_room (verb prepend speech : ustring) : ustring :=
  u "{char} " ++ escape_braces verb ++ u ", |n" ++ [dquote]
    ++ escape_braces prepend ++ escape_braces speech ++ u "|n" ++ [dquote].

(** Line 90: From inside you, %s %s, |nQ%s%s|nQ filled with the display
    name and the three escaped values. *)
Definition say_inside (name verb prepend speech : ustring) : ustring :=
  u "From inside you, " ++ name ++ u " " ++ escape_braces verb ++ u ", |n"
    ++ [dquote] ++ escape_braces prepend ++ escape_braces speech ++ u "|n"
    ++ [dquote].

(** Line 122: [OOC {char}] %s filled with [escape_braces(args)]. *)
Definition ooc_room (args : ustring) : ustring :=
  u "[OOC {char}] " ++ escape_braces args.

(** What a command hands to its collaborators. *)
Inductive output : Type :=
| RoomMsg (text : ustring) (raw : bool)      (* here.msg_contents(text=..., options={'raw': raw}) *)
| HereMsg (text : ustring)                   (* here.msg(text=...) *)
| CharMsg (text : ustring) (raw : bool)      (* char.msg(..., options={'raw': raw}) *)
| AccountExecute (cmd : ustring).            (* account.execute_cmd(cmd) *)

(** Lines 79-92: the messages of a spoken line.  [has_account] is
    [here.has_account], [name] is [char.get_display_name(here)]. *)
Definition say_messages (ooc : bool) (verb prepend speech : ustring)
    (has_account : bool) (name : ustring) : list output :=
  if ooc then
    RoomMsg (say_ooc_room speech) false
      :: (if has_account then [HereMsg (say_ooc_inside name speech)] else [])
  else
    RoomMsg (say_room verb prepend speech) false
      :: (if has_account then [HereMsg (say_inside name verb prepend speech)] else []).

(** *** [CmdSpoof.func] *)

(** A value that is either a string or an integer, as [x or 0] yields. *)
Inductive pyval : Type :=
| PStr (s : ustring)
| PInt (z : Z).

Definition is_digit (c : N) : bool := (0x30 <=? c) && (c <=? 0x39).

(** [re.sub] of every character outside 0123456789 by the empty string *)
Definition sub_nondigits (s : ustring) : ustring := List.filter is_digit s.

(** [s or d] for a string [s] and an integer [d] *)
Definition or_int (s : ustring) (d : Z) : pyval :=
  if truthy s then PStr s else PInt d.

Definition decimal (s : ustring) : Z :=
  fold_left (fun acc c => (10 * acc + Z.of_N (c - 0x30))%Z) s 0%Z.

(** [int(v)], for an integer or a string of decimal digits. *)
Definition int (v : pyval) : result Z :=
  match v with
  | PInt z => Ok z
  | PStr s => if truthy s && forallb is_digit s then Ok (decimal s) else Raise ValueError
  end.

(** The number that the digits of [s] spell, [d] when [s] has none. *)
Definition digits_or (s : ustring) (d : Z) : Z :=
  if truthy (sub_nondigits s) then decimal (sub_nondigits s) else d.

(** A text of decimal digits only. *)
Definition digits (s : ustring) : Prop := forallb is_digit s = true.

(** [a < b] on strings: by code point, a proper prefix first. *)
Fixpoint str_lt (a b : ustring) : bool :=
  match a, b with
  | _, [] => false
  | [], _ :: _ => true
  | x :: a', y :: b' =>
      if x <? y then true else if y <? x then false else str_lt a' b'
  end.

(** [a < b] in Python 2: a number sorts before every string. *)
Definition py_lt (a b : pyval) : bool :=
  match a, b with
  | PInt x, PInt y => (x <? y)%Z
  | PStr s, PStr t => str_lt s t
  | PInt _, PStr _ => true
  | PStr _, PInt _ => false
  end.

(** [max(a, b)] and [min(a, b)]: the first of equal items wins. *)
Definition py_max (a b : pyval) : pyval := if py_lt a b then b else a.
Definition py_min (a b : pyval) : pyval := if py_lt b a then b else a.

(** Lines 165-169: the indent of [/indent]. *)
Definition indent_param (rhs : option ustring) : result Z :=
  match rhs with
  | Some r => if truthy r then int (or_int (sub_nondigits r) 20) else Ok 20%Z
  | None => Ok 20%Z
  end.

(** Lines 175-189: [outside] and [inside], the width and the indent handed
    to [justify]. *)
Definition justify_params (rhs : option ustring) : result (Z * Z) :=
  match rhs with
  | Some r =>
      let parameters := if truthy r then split_ws r else [] in
      if (1 <? length parameters)%nat then
        '(outside, inside) ←
           (if (length parameters =? 2)%nat then unpack2 (split_ws r)
            else o ← index parameters 0; i ← index parameters 1; Ok (o, i));
        let outside := or_int (sub_nondigits outside) 0 in
        let inside := or_int (sub_nondigits inside) 0 in
        w ← int (py_max outside inside);
        i ← int (py_min outside inside);
        Ok (w, i)
      else Ok (72, 20)%Z
  | None =>
      v ← int (PInt 72);
      Ok (72, Z.min v 20)%Z
  end.

Record CmdSpoof : Type := MkCmdSpoof {
  cmdstring : ustring;
  switches : list ustring;
  raw : ustring;
  args : ustring;
  lhs : ustring;
  rhs : option ustring;
  here : bool                 (* char.location is not None *)
}.

Section Spoof.

(** [evennia.utils.ansi.strip_ansi] and [evennia.utils.utils.justify]. *)
Variable strip_ansi : ustring -> ustring.
Variable justify : ustring -> Z -> ustring -> Z -> ustring.

(** The interpreter that runs the command: [sys.maxsize], and whether it
    has the memory for a line that begins with a given number of spaces. *)
Variable maxsize : Z.
Variable allocates : Z -> bool.

(** [' ' * n], lines 171 and 173: a count that does not fit an index
    raises [OverflowError], a count below one gives the empty string, and
    a string that cannot be allocated raises [MemoryError]. *)
Definition spaces (n : Z) : result ustring :=
  if ((maxsize <? n) || (n <? - maxsize - 1))%Z then Raise OverflowError
  else if (n <=? 0)%Z then Ok []
  else if allocates n then Ok (repeat 0x20 (Z.to_nat n))
  else Raise MemoryError.

Definition has_switch (name : string) (self : CmdSpoof) : bool :=
  existsb (ustring_eqb (u name)) self.(switches).

(** [char.msg(text)] or [here.msg_contents(escape_braces(text))] *)
Definition emit (to_self raw_opt : bool) (own room : ustring) : output :=
  if to_self then CharMsg own raw_opt else RoomMsg room raw_opt.

Definition func (self : CmdSpoof) : result (list output) :=
  let args := self.(args) in
  let to_self := has_switch "self" self || negb self.(here) in
  if negb (truthy args) then Ok [AccountExecute (u "help spoof")]
  else
    let stripped := strip_ansi args in
    let spoof := if has_switch "strip" self then stripped
                 else replace_char pipe [pipe; pipe] args in
    if has_switch "indent" self then
      let args := if truthy (default [] self.(rhs)) then strip self.(lhs) else args in
      indent ← indent_param self.(rhs);
      pad ← spaces indent;
      Ok [emit to_self false (pad ++ rstrip args) (pad ++ escape_braces (rstrip args))]
    else if has_switch "right" self || has_switch "center" self || has_switch "news" self then
      let args := match self.(rhs) with Some _ => strip self.(lhs) | None => args end in
      '(outside, inside) ← justify_params self.(rhs);
      let block := if has_switch "right" self then u "r" else u "f" in
      let block := if has_switch "center" self then u "c" else block in
      Ok (map (fun text => emit to_self false (rstrip text) (escape_braces (rstrip text)))
              (split [newline] (justify args outside block inside)))
    else if has_switch "strip" self then
      Ok [emit to_self true (rstrip spoof) (escape_braces (rstrip spoof))]
    else if existsb (N.eqb 0x2E) self.(cmdstring) then
      let spoof := rstrip self.(raw) in
      Ok [emit to_self true (u "<code>" ++ spoof ++ u "</code>")
                            (u "<code>" ++ spoof ++ u "</code>")]
    else
      Ok [emit to_self false (rstrip args) (escape_braces (rstrip spoof))].

End Spoof.

End Say.

(* ===================================================================== *)
(** ** server/conf: [inlinefuncs.usage] and [settings.INLINEFUNC_ENABLED] *)
(* ===================================================================== *)

Module Inlinefuncs.

(** settings.py, line 39 *)
Definition INLINEFUNC_ENABLED : bool := false.



End Inlinefuncs.

(* ===================================================================== *)
(** ** NOWMU/NOW/typeclasses/objects.py: surfaces and consumables        *)
(* ===================================================================== *)

Module Objects.

Definition objid : Type := positive.

(** The attribute values the methods store. *)
Inductive value : Type :=
| VBool (b : bool)
| VInt (z : Z)
| VDict (d : gmap objid ustring).

(** The attribute store of every object: [obj.attributes] / [obj.db]. *)
Abbreviation world := (gmap objid (gmap string value)).

Definition attrs_of (w : world) (o : objid) : gmap string value :=
  default ∅ (w !! o).

(** [o.attributes.has(key)] *)
Definition has (w : world) (o : objid) (key : string) : bool :=
  bool_decide (is_Some (attrs_of w o !! key)).

(** [o.db.key]: [None] when the attribute is missing. *)
Definition db_get (w : world) (o : objid) (key : string) : option value :=
  attrs_of w o !! key.

(** [o.db.key = v] *)
Definition db_set (w : world) (o : objid) (key : string) (v : value) : world :=
  <[o := <[key := v]> (attrs_of w o)]> w.

(** [o.attributes.remove(key)]: silent when the attribute is missing. *)
Definition remove (w : world) (o : objid) (key : string) : world :=
  <[o := delete key (attrs_of w o)]> w.

Section Surface.

(** [caller.location], which the methods only use to notify the room. *)
Variable location : objid -> option objid.

(** [caller.location.msg_contents(...)]: raises when there is no location. *)
Definition notify_room (caller : objid) : result unit :=
  match location caller with
  | Some _ => Ok tt
  | None => Raise AttributeError
  end.

(** [Object.surface_put(pose, caller, connection)]: the store afterwards,
    and the value returned or the exception raised. *)
Definition surface_put (self caller : objid) (connection : ustring) (w : world)
  : world * result bool :=
  let w := if has w self "surface" then w else db_set w self "surface" (VDict ∅) in
  match db_get w self "surface" with
  | Some (VDict surface) =>
      if bool_decide (caller ∈ dom surface) then (w, Ok false)
      else
        let w := db_set w self "surface" (VDict (<[caller := connection]> surface)) in
        let w := db_set w self "locked" (VBool true) in
        let w := db_set w caller "locked" (VBool true) in
        (w, _ ← notify_room caller; Ok true)
  | _ => (w, Raise TypeError)
  end.

(** [Object.surface_off(pose, caller)] *)
Definition surface_off (self caller : objid) (w : world) : world * result bool :=
  match db_get w self "surface" with
  | Some (VDict surface) =>
      if bool_decide (caller ∈ dom surface) then
        let surface := delete caller surface in
        let w := db_set w self "surface" (VDict surface) in
        let w := if (size surface <? 1)%nat then remove w self "locked" else w in
        let w := remove w caller "locked" in
        (w, _ ← notify_room caller; Ok true)
      else (w, Ok false)
  | _ => (w, Raise TypeError)
  end.

Inductive call : Type :=
| Put (caller : objid) (connection : ustring)
| Off (caller : objid).

Definition caller_of (c : call) : objid :=
  match c with
  | Put caller _ => caller
  | Off caller => caller
  end.

Definition step (self : objid) (w : world) (c : call) : world :=
  match c with
  | Put caller connection => (surface_put self caller connection w).1
  | Off caller => (surface_off self caller w).1
  end.

(** The store after a sequence of calls on [self]; a call that raises
    leaves what it had stored by then. *)
Definition run (self : objid) (w : world) (cs : list call) : world :=
  fold_left (step self) cs w.

End Surface.

(** The surface map of [o], empty when the attribute is missing. *)
Definition surface_of (w : world) (o : objid) : gmap objid ustring :=
  match db_get w o "surface" with
  | Some (VDict d) => d
  | _ => ∅
  end.

Definition locked (w : world) (o : objid) : Prop :=
  is_Some (db_get w o "locked").

(** An object that nobody sits on yet: no (or an empty) surface map and no
    ['locked'] attribute. *)
Definition fresh (w : world) (o : objid) : Prop :=
  (db_get w o "surface" = None \/ db_get w o "surface" = Some (VDict ∅))
  /\ db_get w o "locked" = None.

(** The surface attribute is missing or a dictionary, and ['locked'] is
    set exactly when somebody is on the surface. *)
Definition surface_inv (w : world) (o : objid) : Prop :=
  (db_get w o "surface" = None \/ exists d, db_get w o "surface" = Some (VDict d))
  /\ (locked w o <-> surface_of w o <> ∅).

(** The integer a value counts as in arithmetic. *)
Definition as_int (v : value) : result Z :=
  match v with
  | VInt z => Ok z
  | VBool b => Ok (if b then 1 else 0)%Z
  | VDict _ => Raise TypeError
  end.

(** [Consumable.consume(caller)]: the store afterwards and the value
    returned ([None] when the method falls off its end). *)
Definition consume (self caller : objid) (w : world) : world * result (option value) :=
  if has w self "health" then
    match db_get w self "health" with
    | Some v =>
        match as_int v with
        | Ok h =>
            let w := db_set w self "health" (VInt (h - 1)) in
            let w := if (h - 1 <? 1)%Z then db_set w self "health" (VInt 0) else w in
            (w, Ok (db_get w self "health"))
        | Raise e => (w, Raise e)
        end
    | None => (w, Raise TypeError)
    end
  else (w, Ok None).

End Objects.

(* ===================================================================== *)
(** ** objects.py: moving, details, eating and drinking                   *)
(* ===================================================================== *)

Module Things.

Import Objects.

(** [Object.at_before_move(destination)]: [False] vetoes the move. *)
Definition at_before_move (self : objid) (w : world) : bool :=
  if has w self "locked" then false else true.

(** The surface attribute is missing or a dictionary. *)
Definition surface_wf (w : world) (o : objid) : Prop :=
  db_get w o "surface" = None \/ exists d, db_get w o "surface" = Some (VDict d).

(** Book-keeping of who is on a surface: a caller is entered with its
    connection unless it is on the map already, and taken out when it
    leaves. *)
Definition occupy (m : gmap objid ustring) (c : call) : gmap objid ustring :=
  match c with
  | Put caller connection =>
      if bool_decide (caller ∈ dom m) then m else <[caller := connection]> m
  | Off caller => delete caller m
  end.

(** [consume] called [n] times in a row. *)
Fixpoint consume_times (n : nat) (self caller : objid) (w : world) : world :=
  match n with
  | O => w
  | S k => consume_times k self caller (consume self caller w).1
  end.

(** [lower] on the ASCII letters, which is what [unicode.lower] does to a
    text of ASCII characters. *)
Definition ascii_lower (s : ustring) : ustring :=
  map (fun c => if (0x41 <=? c) && (c <=? 0x5A) then c + 0x20 else c) s.

Section Details.

(** [unicode.lower] of the runtime. *)
Variable lower : ustring -> ustring.

(** The ['details'] attribute: missing, or a dictionary from keys to
    descriptions. *)
Abbreviation details_attr := (option (gmap ustring ustring)).

(** Truth value of [obj.db.details]. *)
Definition details_truthy (details : details_attr) : bool :=
  match details with
  | Some d => bool_decide (d <> ∅)
  | None => false
  end.

(** [Object.set_detail(detailkey, description)] *)
Definition set_detail (details : details_attr) (detailkey description : ustring)
  : details_attr :=
  if details_truthy details then
    Some (<[lower detailkey := description]> (default ∅ details))
  else Some {[lower detailkey := description]}.

(** [Object.return_detail(detailkey)]: [None] also when the method falls
    off its end. *)
Definition return_detail (details : details_attr) (detailkey : ustring)
  : option ustring :=
  if details_truthy details then default ∅ details !! lower detailkey
  else None.

End Details.

(** What [return_appearance] looks at in one of [self.contents]. *)
Record content : Type := MkContent {
  con_id : objid;
  destination : bool;          (* con.destination is set: an exit *)
  has_player : bool;           (* con.has_player *)
  viewable : bool              (* con.access(viewer, "view") *)
}.

(** Lines 309-317 of [return_appearance]: the contents that are not the
    viewer and that the viewer may view, sorted into exits, users and
    things in the order of [self.contents]. *)
Definition visible (viewer : objid) (con : content) : bool :=
  negb (bool_decide (con.(con_id) = viewer)) && con.(viewable).

(** An exit, a user, a thing that the viewer gets to see. *)
Definition is_exit (viewer : objid) (con : content) : bool :=
  visible viewer con && destination con.

Definition is_user (viewer : objid) (con : content) : bool :=
  visible viewer con && negb (destination con) && has_player con.

Definition is_thing (viewer : objid) (con : content) : bool :=
  visible viewer con && negb (destination con) && negb (has_player con).

Definition sort_contents (viewer : objid) (contents : list content)
  : list content * list content * list content :=
  fold_left
    (fun '(exits, users, things) con =>
       if con.(destination) then (exits ++ [con], users, things)
       else if con.(has_player) then (exits, users ++ [con], things)
       else (exits, users, things ++ [con]))
    (List.filter (visible viewer) contents)
    ([], [], []).

(** Attributes and locations, for the methods that move an object. *)
Record scene : Type := MkScene {
  attrs : world;
  loc : gmap objid objid          (* obj.location; missing is None *)
}.

Inductive told : Type :=
| NotHolding (caller : objid)        (* caller.msg: You are not holding ... *)
| Bite (finished : bool)             (* room: ... takes a bite of ...[, finishing it]. *)
| Sip (finished : bool)              (* room: ... takes a drink of ...[, finishing it]. *)
| SpeciesPrompt (caller : objid).    (* get_input(caller, Species? ..., drink_callback) *)

(** [caller.location.msg_contents(msg)] *)
Definition tell_room (sc : scene) (caller : objid) (t : told) : list told * result unit :=
  match sc.(loc) !! caller with
  | Some _ => ([t], Ok tt)
  | None => ([], Raise AttributeError)
  end.

(** [self.location = None] *)
Definition vanish (self : objid) (sc : scene) : scene :=
  {| attrs := sc.(attrs); loc := delete self sc.(loc) |}.

(** Lines 396-403 and 423-430: [self.db.health -= 1] and the test
    [self.db.health < 1]; without ['health'] the object is finished at
    once.  The result is the store and whether the object is finished. *)
Definition use_up (self : objid) (w : world) : result (world * bool) :=
  if has w self "health" then
    match db_get w self "health" with
    | Some v =>
        h ← as_int v;
        Ok (db_set w self "health" (VInt (h - 1)), (h - 1 <? 1)%Z)
    | None => Raise TypeError
    end
  else Ok (w, true).

(** [Consumable.eat(caller)]; [held] is the outcome of the lock check
    [holds()].  The result is [Some false] for [return False] and [None]
    when the method falls off its end. *)
Definition eat (self caller : objid) (held : bool) (sc : scene)
  : scene * list told * result (option bool) :=
  if negb held then (sc, [NotHolding caller], Ok (Some false))
  else
    match use_up self sc.(attrs) with
    | Raise e => (sc, [], Raise e)
    | Ok (w, finished) =>
        let sc := {| attrs := w; loc := sc.(loc) |} in
        let sc := if finished then vanish self sc else sc in
        let '(ts, r) := tell_room sc caller (Bite finished) in
        (sc, ts, _ ← r; Ok None)
    end.

(** [Consumable.drink(caller)]: an object with ['health'] stays where it
    is however low its health; the caller is then asked for a species. *)
Definition drink (self caller : objid) (held : bool) (sc : scene)
  : scene * list told * result (option bool) :=
  if negb held then (sc, [NotHolding caller], Ok (Some false))
  else
    match use_up self sc.(attrs) with
    | Raise e => (sc, [], Raise e)
    | Ok (w, finished) =>
        let sc := {| attrs := w; loc := sc.(loc) |} in
        let sc := if has sc.(attrs) self "health" then sc else vanish self sc in
        let '(ts, r) := tell_room sc caller (Sip finished) in
        match r with
        | Ok _ => (sc, ts ++ [SpeciesPrompt caller], Ok None)
        | Raise e => (sc, ts, Raise e)
        end
    end.

(** [eat] by a holder, [n] times in a row. *)
Fixpoint eat_times (n : nat) (self caller : objid) (sc : scene) : scene :=
  match n with
  | O => sc
  | S k => eat_times k self caller (eat self caller true sc).1.1
  end.

(** Line 413, in [drink_callback]: [user_input[0:20].strip()], the
    species that is stored on the caller. *)
Definition species_setting (user_input : ustring) : ustring :=
  strip (take 20 user_input).

End Things.

(* ===================================================================== *)
(** ** command.py: [CmdPose.func] and the whole pose command              *)
(* ===================================================================== *)

Module PoseFunc.

Import Pose.

Inductive out : Type :=
| Room (text : ustring) (exclude_caller : bool)   (* caller.location.msg_contents(msg[, exclude=caller]) *)
| ToCaller (text : ustring)                        (* caller.msg(text) *)
| Execute (cmd : ustring).                         (* caller.execute_cmd(cmd) *)

Section Func.

(** [caller.name], whether [caller.location] is set, [obj.name] and the
    lock check [obj.access(caller, verb)]. *)
Variable name : ustring.
Variable located : bool.
Variable obj_name : objref -> ustring.
Variable access : objref -> option ustring -> bool.

(** What was sent so far, and whether the method went on or raised. *)
Definition room (text : ustring) (exclude_caller : bool) : list out * result unit :=
  if located then ([Room text exclude_caller], Ok tt) else ([], Raise AttributeError).

Definition and_then (a b : list out * result unit) : list out * result unit :=
  match a.2 with
  | Ok _ => (a.1 ++ b.1, b.2)
  | Raise e => a
  end.

(** [verb] under the conversion [%s] *)
Definition shown_verb (verb : option ustring) : ustring := default (u "None") verb.

(** [verb + ' ' + obj.name] *)
Definition verb_command (verb : option ustring) (o : objref) : list out * result unit :=
  match verb with
  | Some v => ([Execute (v ++ u " " ++ obj_name o)], Ok tt)
  | None => ([], Raise TypeError)
  end.

(** Lines 657-662: the pose line. *)
Definition pose_line (self : CmdPose) : list out * result unit :=
  if truthy self.(args) then
    if existsb (ustring_eqb (u "o")) self.(switches)
       || existsb (ustring_eqb (u "ooc")) self.(switches)
    then room (u "[OOC]|n |c" ++ name ++ u "|n" ++ self.(args)) false
    else room (u "|c" ++ name ++ u "|n" ++ self.(args)) false
  else ([], Ok tt).

(** Lines 668-683: the response to the verb. *)
Definition verb_response (self : CmdPose) : list out * result unit :=
  match self.(obj) with
  | Some o =>
      let verb := self.(verb) in
      if access o verb then
        if bool_decide (verb = Some (u "get")) || bool_decide (verb = Some (u "drop"))
        then verb_command verb o
        else room (u "|g" ++ name ++ u "|n is able to " ++ shown_verb verb ++ u " "
                     ++ obj_name o ++ u ".") false
      else
        and_then
          (room (u "|r" ++ name ++ u "|n fails to " ++ shown_verb verb ++ u " "
                   ++ obj_name o ++ u ".") true)
          ([ToCaller (u "You failed to " ++ shown_verb verb ++ u " " ++ obj_name o ++ u ".")],
           Ok tt)
  | None => ([], Ok tt)
  end.

(** [CmdPose.func] *)
Definition func (self : CmdPose) : list out * result unit :=
  and_then (pose_line self) (verb_response self).

(** The object search of the framework. *)
Variable search : ustring -> option objref.

(** [parse] followed by [func], as the command handler runs them. *)
Definition pose_command (self : CmdPose) : list event * (list out * result unit) :=
  match parse search self with
  | Ok (self', tr) => (tr, func self')
  | Raise e => ([], ([], Raise e))
  end.

End Func.

End PoseFunc.

(* ===================================================================== *)
(** ** say.py: [parse_say], [CmdSay.func] and [CmdOoc.func]               *)
(* ===================================================================== *)

Module SayCmd.

Import Say.

Definition slash : N := 0x2F.

(** [sep.join(words)] *)
Fixpoint join (sep : ustring) (words : list ustring) : ustring :=
  match words with
  | [] => []
  | [w] => w
  | w :: ws => w ++ sep ++ join sep ws
  end.

(** A word: not empty, no whitespace in it. *)
Definition word (t : ustring) : Prop :=
  t <> [] /\ Forall (fun c => isspace c = false) t.

(** [s.startswith(c)] and [s.endswith(c)] for a one-character [c] *)
Definition startswith (c : N) (s : ustring) : bool :=
  match s with
  | x :: _ => x =? c
  | [] => false
  end.

Definition endswith (c : N) (s : ustring) : bool :=
  match last s with
  | Some x => x =? c
  | None => false
  end.

(** A word as it is said when nothing matches: typed with two leading
    slashes and no trailing one, it loses the first slash. *)
Definition unslash (w : ustring) : ustring :=
  if startswith slash w && negb (endswith slash w) && startswith slash (drop 1 w)
  then drop 1 w else w.

(** The characters of [".,!?"] *)
Definition word_ends : list N := [0x2E; 0x2C; 0x21; 0x3F].

Section ParseSay.

(** [char.search(word, quiet=True)]: the display name of the first match,
    [match[0].get_display_name(char)], or [None] when nothing matches. *)
Variable search : ustring -> option ustring.

(** The body of the loop of [parse_say] for one word: what is appended
    to [return_text], and the words that were searched for. *)
Definition parse_each (each : ustring) : result (ustring * list ustring) :=
  if startswith slash each then
    if endswith slash each then Ok (each, [])
    else
      let search_word := drop 1 each in
      if startswith slash search_word then Ok (drop 1 each, [])
      else
        final ← index each (length each - 1);
        let '(search_word, word_end) :=
          if bool_decide (final ∈ word_ends)
          then (take (length search_word - 1) search_word, [final])
          else (search_word, []) in
        match search search_word with
        | Some shown => Ok (shown ++ word_end, [search_word])
        | None => Ok (each, [search_word])
        end
  else Ok (each, []).

Fixpoint parse_words (words : list ustring) : result (list ustring * list ustring) :=
  match words with
  | [] => Ok ([], [])
  | each :: rest =>
      '(new_each, s1) ← parse_each each;
      '(news, s2) ← parse_words rest;
      Ok (new_each :: news, s1 ++ s2)
  end.

(** [parse_say(text)]: the text, and the words searched for on the way. *)
Definition parse_say (text : ustring) : result (ustring * list ustring) :=
  '(news, searched) ← parse_words (split_ws text);
  Ok (join (u " ") news, searched).

(** What [CmdSay.func] reads and writes on the character. *)
Record speaker : Type := MkSpeaker {
  say_verb : option ustring;                    (* the attribute 'say-verb' *)
  quote : option ustring;                       (* char.quote *)
  messages : option (gmap ustring ustring)      (* char.db.messages *)
}.

Inductive said : Type :=
| Out (o : output)
| SessMsg (text : ustring).                     (* sess.msg(text) *)

Record CmdSay : Type := MkCmdSay {
  switches : list ustring;
  args : ustring;
  has_char : bool;            (* self.character is set *)
  here : bool;                (* char.location is set *)
  has_account : bool;         (* here.has_account *)
  name : ustring              (* char.get_display_name(here) *)
}.

Definition opt (o : string) (self : CmdSay) : bool :=
  existsb (ustring_eqb (u o)) self.(switches).

(** Line 43: {char} warms up vocally with Q%s|nQ filled with
    [escape_braces(args)], Q standing for the double quote. *)
Definition warms_up (args : ustring) : ustring :=
  u "{char} warms up vocally with " ++ [dquote] ++ escape_braces args
    ++ u "|n" ++ [dquote].

(** Lines 77-78: the text put in front of the speech. *)
Definition prepend_of (sp : speaker) : ustring :=
  match sp.(messages) with
  | Some m =>
      if bool_decide (m <> ∅) then
        match m !! u "say prepend" with
        | Some p => if truthy p then p else u "|w"
        | None => u "|w"
        end
      else u "|w"
  | None => u "|w"
  end.

(** [CmdSay.func]: the character afterwards, what was sent, the words
    searched for. *)
Definition func (self : CmdSay) (sp : speaker)
  : result (speaker * list said * list ustring) :=
  let args := strip self.(args) in
  if negb (self.(here) && self.(has_char)) then
    if truthy args then Ok (sp, [Out (AccountExecute (u "pub " ++ args))], [])
    else Ok (sp, [SessMsg (u "Usage: say <message>   to speak on public channel.")], [])
  else if negb (truthy args) then Ok (sp, [Out (AccountExecute (u "help say"))], [])
  else if opt "verb" self then
    Ok ({| say_verb := Some args; quote := sp.(quote); messages := sp.(messages) |},
        [Out (RoomMsg (warms_up args) false)], [])
  else if opt "quote" self then
    if (2 <? length args)%nat then
      Ok ({| say_verb := sp.(say_verb); quote := Some args; messages := sp.(messages) |},
          [], [])
    else Ok (sp, [], [])
  else
    '(speech, searched) ← parse_say args;
    let verb := default (u "says") sp.(say_verb) in
    let prepend := prepend_of sp in
    Ok (sp,
        map Out (say_messages (opt "ooc" self) verb prepend speech
                   self.(has_account) self.(name)),
        searched).

End ParseSay.

(** [CmdOoc.func] of say.py; [here] says whether [char.location] is set,
    [has_account] is [here.has_account], [name] the display name. *)
Definition ooc_func (args0 : ustring) (here has_account : bool) (name : ustring)
  : result (list output) :=
  let args := strip args0 in
  if negb (truthy args) then Ok [AccountExecute (u "help ooc")]
  else
    first ← index args 0;
    if (first =? dquote) || (first =? 0x27) then
      Ok [AccountExecute (u "say/o " ++ drop 1 args)]
    else if (first =? 0x3A) || (first =? 0x3B) then
      Ok [AccountExecute (u "pose/o " ++ drop 1 args)]
    else if here then
      Ok (RoomMsg (ooc_room args) false
            :: (if has_account
                then [HereMsg (u "[OOC " ++ name ++ u "] " ++ escape_braces args)]
                else []))
    else Raise AttributeError.

End SayCmd.

(* ===================================================================== *)
(** * Part II: facts                                                      *)
(* ===================================================================== *)

(** ** Python strings *)

Module PyFacts.

#[local] Arguments isspace : simpl never.

Lemma strip_prefix_Some sep s rest :
  strip_prefix sep s = Some rest <-> s = sep ++ rest.
Proof.
  revert s; induction sep as [|a sep IH]; intros s; simpl.
  - split; congruence.
  - destruct s as [|c s]; [split; discriminate|].
    destruct (N.eqb_spec a c) as [->|Hne].
    + rewrite IH. split; congruence.
    + split; [discriminate | congruence].
Qed.

Lemma partition_unfold sep s :
  partition sep s =
  match strip_prefix sep s with
  | Some rest => Some ([], rest)
  | None =>
      match s with
      | [] => None
      | c :: s' =>
          match partition sep s' with
          | Some (a, b) => Some (c :: a, b)
          | None => None
          end
      end
  end.
Proof. destruct s; reflexivity. Qed.

Lemma partition_first sep s a b :
  partition sep s = Some (a, b) -> first_split sep s a b.
Proof.
  revert a b; induction s as [|c s IH]; intros a b; rewrite partition_unfold.
  - destruct (strip_prefix sep []) as [rest|] eqn:E; [|discriminate].
    intros [= <- <-]. apply strip_prefix_Some in E.
    split; [exact E | simpl; lia].
  - destruct (strip_prefix sep (c :: s)) as [rest|] eqn:E.
    + intros [= <- <-]. apply strip_prefix_Some in E.
      split; [exact E | simpl; lia].
    + destruct (partition sep s) as [[a0 b0]|]; [|discriminate].
      intros [= <- <-]. destruct (IH a0 b0 eq_refl) as [Hs Hmin].
      split; [simpl; congruence|].
      intros [|c' a'] b' Heq.
      * simpl in Heq. apply strip_prefix_Some in Heq. congruence.
      * simpl in Heq. injection Heq as -> Heq.
        specialize (Hmin _ _ Heq). simpl. lia.
Qed.

Lemma partition_None sep s :
  partition sep s = None -> ~ occurs sep s.
Proof.
  induction s as [|c s IH]; rewrite partition_unfold.
  - destruct (strip_prefix sep []) eqn:E; [discriminate|].
    intros _ ([|??] & b & Heq); [|discriminate].
    simpl in Heq. apply strip_prefix_Some in Heq. congruence.
  - destruct (strip_prefix sep (c :: s)) eqn:E; [discriminate|].
    destruct (partition sep s) as [[??]|] eqn:Ep; [discriminate|].
    intros _ ([|c' a] & b & Heq).
    + simpl in Heq. apply strip_prefix_Some in Heq. congruence.
    + simpl in Heq. injection Heq as -> Heq. apply IH; [reflexivity|].
      exists a, b. exact Heq.
Qed.

Lemma occurs_partition sep s :
  occurs sep s -> exists a b, partition sep s = Some (a, b).
Proof.
  intros Hocc. destruct (partition sep s) as [[a b]|] eqn:E; [eauto|].
  exfalso. eapply partition_None; eauto.
Qed.

Lemma first_split_unique sep s a b a' b' :
  first_split sep s a b -> first_split sep s a' b' -> a = a' /\ b = b'.
Proof.
  intros [H1 M1] [H2 M2].
  pose proof (M1 _ _ H2) as L1. pose proof (M2 _ _ H1) as L2.
  assert (Hlen : length a = length a') by lia.
  rewrite H1 in H2.
  apply app_inj_1 in H2 as [-> H2]; [|exact Hlen].
  split; [reflexivity|]. by apply app_inv_head in H2.
Qed.

Lemma splitn_nonempty sep n s : (0 < length (splitn sep n s))%nat.
Proof.
  destruct n; simpl; [lia|].
  destruct (partition sep s) as [[??]|]; simpl; lia.
Qed.

(** [len(s.split(sep)) > 1] says that [sep] occurs in [s]. *)
Lemma split_length sep s :
  sep <> [] ->
  (1 <? length (split sep s))%nat = bool_decide (is_Some (partition sep s)).
Proof.
  intros Hsep. unfold split. destruct s as [|c s].
  - destruct sep; [done|]. reflexivity.
  - cbn [length splitn].
    destruct (partition sep (c :: s)) as [[a b]|].
    + rewrite bool_decide_eq_true_2; [|eauto].
      pose proof (splitn_nonempty sep (length s) b).
      apply Nat.ltb_lt. simpl. lia.
    + rewrite bool_decide_eq_false_2; [done|]. by intros [? ?].
Qed.

Lemma splitn_once sep s :
  splitn sep 1 s =
  match partition sep s with
  | Some (a, b) => [a; b]
  | None => [s]
  end.
Proof. simpl. by destruct (partition sep s) as [[??]|]. Qed.

(** The bound that [split] puts on the number of cuts is never reached. *)
Lemma splitn_enough sep n m s :
  sep <> [] -> (length s <= n)%nat -> (length s <= m)%nat ->
  splitn sep n s = splitn sep m s.
Proof.
  intros Hsep. revert m s. induction n as [|n IH]; intros m s Hn Hm.
  - destruct s; [|simpl in Hn; lia]. destruct m; [reflexivity|].
    by destruct sep.
  - destruct m as [|m].
    + destruct s; [|simpl in Hm; lia]. by destruct sep.
    + simpl. destruct (partition sep s) as [[a b]|] eqn:E; [|reflexivity].
      f_equal. apply partition_first in E as [E _].
      assert (length b < length s)%nat.
      { rewrite E, !length_app. destruct sep; [done|]. simpl. lia. }
      apply IH; lia.
Qed.

Example split_sep_example :
  split (u "::") (u "a::b::::c") = [u "a"; u "b"; []; u "c"].
Proof. reflexivity. Qed.

Example split_ws_example :
  split_ws (0x09 :: u "  get   the anvil ") = [u "get"; u "the"; u "anvil"].
Proof. reflexivity. Qed.

Example strip_example : strip (u "  get  anvil ") = u "get  anvil".
Proof. reflexivity. Qed.

(** *** Whitespace *)

(** The tokens of [split_ws] are non-empty and free of whitespace. *)
Lemma split_ws_tokens s t :
  t ∈ split_ws s -> t <> [] /\ Forall (fun c => isspace c = false) t.
Proof.
  revert t; induction s as [|c s IH]; intros t; [by intros ?%elem_of_nil|].
  change (split_ws (c :: s)) with
    (if isspace c then split_ws s
     else match s with
          | [] => [[c]]
          | d :: _ =>
              if isspace d then [c] :: split_ws s
              else match split_ws s with
                   | t :: ts => (c :: t) :: ts
                   | [] => [[c]]
                   end
          end).
  destruct (isspace c) eqn:Ec; [apply IH|].
  assert (Hone : [c] <> [] /\ Forall (fun c => isspace c = false) [c]).
  { split; [done|]. by constructor. }
  destruct s as [|d s']; [by intros ->%list_elem_of_singleton|].
  destruct (isspace d) eqn:Ed.
  - intros [->|Hin]%elem_of_cons; [exact Hone | by apply IH].
  - destruct (split_ws (d :: s')) as [|t' ts] eqn:Es;
      [by intros ->%list_elem_of_singleton|].
    intros [->|Hin]%elem_of_cons.
    + destruct (IH t') as (Hne & Hall); [left|].
      split; [done|]. by constructor.
    + apply IH. by right.
Qed.

Lemma split_ws_lstrip s : split_ws (lstrip s) = split_ws s.
Proof.
  induction s as [|c s IH]; [done|].
  simpl. destruct (isspace c) eqn:E; [exact IH|].
  simpl. by rewrite E.
Qed.

Lemma split_ws_nil_rstrip s : split_ws s = [] -> rstrip s = [].
Proof.
  induction s as [|c s IH]; [done|].
  simpl. destruct (isspace c) eqn:E.
  - intros H. by rewrite (IH H).
  - destruct s as [|d s]; [discriminate|].
    destruct (isspace d); [discriminate|].
    destruct (split_ws (d :: s)); discriminate.
Qed.

(** A text that begins with a word has a non-empty first token. *)
Lemma split_ws_head c s :
  isspace c = false -> exists t ts, split_ws (c :: s) = (c :: t) :: ts.
Proof.
  intros E. simpl. rewrite E.
  destruct s as [|d s]; [by eexists _, _|].
  destruct (isspace d); [by eexists _, _|].
  destruct (split_ws (d :: s)); by eexists _, _.
Qed.

Lemma rstrip_head c s :
  isspace c = false -> exists r, rstrip (c :: s) = c :: r.
Proof.
  intros E. simpl. rewrite E. destruct (rstrip s); by eexists.
Qed.

Lemma split_ws_single_rstrip c s t :
  isspace c = false -> split_ws (c :: s) = [t] -> rstrip (c :: s) = t.
Proof.
  revert c t; induction s as [|d s IH]; intros c t E.
  - simpl. rewrite E. by intros [= <-].
  - change (split_ws (c :: d :: s)) with
      (if isspace c then split_ws (d :: s)
       else if isspace d then [c] :: split_ws (d :: s)
       else match split_ws (d :: s) with
            | t :: ts => (c :: t) :: ts
            | [] => [[c]]
            end).
    rewrite E. destruct (isspace d) eqn:Ed.
    + intros [= <- Hnil]. apply (split_ws_nil_rstrip (d :: s)) in Hnil.
      change (rstrip (c :: d :: s)) with
        (match rstrip (d :: s) with
         | [] => if isspace c then [] else [c]
         | r => c :: r
         end).
      by rewrite Hnil, E.
    + destruct (split_ws (d :: s)) as [|t' ts] eqn:Es.
      { destruct (split_ws_head d s Ed) as (? & ? & Hh). congruence. }
      intros [= <- ->].
      rewrite <- (IH d t' Ed Es).
      destruct (rstrip_head d s Ed) as [r Hr].
      change (rstrip (c :: d :: s)) with
        (match rstrip (d :: s) with
         | [] => if isspace c then [] else [c]
         | r => c :: r
         end).
      by rewrite Hr.
Qed.

(** A text of exactly one word, stripped, is that word. *)
Lemma split_ws_single_strip s t : split_ws s = [t] -> strip s = t.
Proof.
  unfold strip. rewrite <- split_ws_lstrip.
  induction s as [|c s IH]; [discriminate|].
  simpl. destruct (isspace c) eqn:E; [exact IH|].
  intros H. apply split_ws_single_rstrip; [exact E | exact H].
Qed.

End PyFacts.

(* ===================================================================== *)
(** ** More on stripping, splitting and joining                           *)
(* ===================================================================== *)

Module TextFacts.

Import PyFacts SayCmd.

#[local] Arguments isspace : simpl never.

Lemma lstrip_length s : (length (lstrip s) <= length s)%nat.
Proof.
  induction s as [|c s IH]; [done|]. simpl. destruct (isspace c); simpl; lia.
Qed.

Lemma rstrip_length s : (length (rstrip s) <= length s)%nat.
Proof.
  induction s as [|c s IH]; [done|]. simpl.
  destruct (rstrip s); [destruct (isspace c)|]; simpl in *; lia.
Qed.

Lemma strip_length s : (length (strip s) <= length s)%nat.
Proof.
  unfold strip. pose proof (rstrip_length (lstrip s)). pose proof (lstrip_length s). lia.
Qed.

Lemma lstrip_head s : lstrip s = [] \/ exists c t, lstrip s = c :: t /\ isspace c = false.
Proof.
  induction s as [|c s IH]; [by left|]. simpl.
  destruct (isspace c) eqn:E; [exact IH | right; eauto].
Qed.

Lemma rstrip_idem s : rstrip (rstrip s) = rstrip s.
Proof.
  induction s as [|c s IH]; [done|]. simpl.
  destruct (rstrip s) as [|r rs] eqn:Hr.
  - destruct (isspace c) eqn:E; [done|]. simpl. by rewrite E.
  - change (rstrip (c :: r :: rs)) with
      (match rstrip (r :: rs) with
       | [] => if isspace c then [] else [c]
       | t => c :: t
       end).
    by rewrite IH.
Qed.

Lemma rstrip_last s c : last (rstrip s) = Some c -> isspace c = false.
Proof.
  induction s as [|x s IH]; [done|]. simpl.
  destruct (rstrip s) as [|r rs] eqn:Hr.
  - destruct (isspace x) eqn:E; [done|]. simpl. by intros [= <-].
  - intros H. apply IH. exact H.
Qed.

(** A stripped text is empty, or begins and ends with something that is
    not whitespace. *)
Lemma strip_ends s :
  strip s = [] \/
  exists c d, head (strip s) = Some c /\ last (strip s) = Some d /\
              isspace c = false /\ isspace d = false.
Proof.
  unfold strip. destruct (lstrip_head s) as [->|(c & t & -> & Hc)]; [by left|].
  right. destruct (rstrip_head c t Hc) as [r Hr]. rewrite Hr.
  destruct (last (c :: r)) as [d|] eqn:Hl.
  - exists c, d. repeat split; try done. apply (rstrip_last (c :: t)). by rewrite Hr.
  - by apply last_None in Hl.
Qed.

Lemma strip_idem s : strip (strip s) = strip s.
Proof.
  unfold strip. destruct (lstrip_head s) as [->|(c & t & -> & Hc)]; [done|].
  destruct (rstrip_head c t Hc) as [r Hr]. rewrite Hr.
  cbn [lstrip]. rewrite Hc, <- Hr. apply rstrip_idem.
Qed.

(** A text that neither begins nor ends with whitespace is its own strip. *)
Lemma strip_fixed s c d :
  head s = Some c -> last s = Some d -> isspace c = false -> isspace d = false ->
  strip s = s.
Proof.
  intros Hh Hl Hc Hd. unfold strip.
  destruct s as [|x s]; [done|]. injection Hh as ->.
  cbn [lstrip]. rewrite Hc. clear Hc. revert c Hl.
  induction s as [|y s IH]; intros c Hl.
  - simpl in *. injection Hl as ->. by rewrite Hd.
  - change (rstrip (c :: y :: s)) with
      (match rstrip (y :: s) with
       | [] => if isspace c then [] else [c]
       | t => c :: t
       end).
    by rewrite (IH y Hl).
Qed.

Lemma split_ws_words s : Forall word (split_ws s).
Proof. apply Forall_forall. intros t Ht. by apply split_ws_tokens in Ht. Qed.

Lemma split_ws_cons_word c t rest :
  isspace c = false -> Forall (fun c => isspace c = false) t ->
  (rest = [] \/ exists sp r, rest = sp :: r /\ isspace sp = true) ->
  split_ws (c :: t ++ rest) = (c :: t) :: split_ws rest.
Proof.
  revert c. induction t as [|d t IH]; intros c Hc Ht Hrest.
  - cbn [app]. destruct Hrest as [->|(sp & r & -> & Hsp)].
    + simpl. by rewrite Hc.
    + simpl. by rewrite Hc, Hsp.
  - inversion Ht as [|? ? Hd Ht']; subst.
    change (split_ws (c :: (d :: t) ++ rest)) with
      (if isspace c then split_ws (d :: t ++ rest)
       else if isspace d then [c] :: split_ws (d :: t ++ rest)
       else match split_ws (d :: t ++ rest) with
            | t :: ts => (c :: t) :: ts
            | [] => [[c]]
            end).
    by rewrite Hc, Hd, (IH d Hd Ht' Hrest).
Qed.

(** Splitting what was joined from words gives the words back. *)
Lemma split_ws_join sp ws :
  isspace sp = true -> Forall word ws -> split_ws (SayCmd.join [sp] ws) = ws.
Proof.
  intros sp_space. induction 1 as [|t ws [Hne Ht] Hws IH]; [done|].
  destruct t as [|c t]; [done|]. inversion Ht as [|? ? Hc Ht']; subst.
  destruct ws as [|t' ws'].
  - cbn [SayCmd.join]. rewrite <- (app_nil_r t) at 1.
    rewrite (split_ws_cons_word c t [] Hc Ht'); [done | by left].
  - change (SayCmd.join [sp] ((c :: t) :: t' :: ws'))
      with (c :: t ++ sp :: SayCmd.join [sp] (t' :: ws')).
    rewrite (split_ws_cons_word c t _ Hc Ht'); [|right; eauto].
    f_equal. simpl. rewrite sp_space. exact IH.
Qed.

End TextFacts.

(* ===================================================================== *)
(** ** [CmdPose.parse]                                                    *)
(* ===================================================================== *)

Module PoseFacts.

Import PyFacts Pose.

#[local] Arguments isspace : simpl never.

Lemma sep_nonempty : sep <> [].
Proof. discriminate. Qed.

Lemma glyph_space_spaced text : glyph_space text = Ok (spaced text).
Proof.
  destruct text as [|c text]; [reflexivity|].
  unfold glyph_space, spaced. cbn [truthy index nth_error].
  change (Ok c ≫= ?k) with (k c). cbv beta.
  by destruct (in_non_space_chars [c]).
Qed.

Section WithSearch.

Variable search : ustring -> option objref.

(** The power-pose branch, case by case. *)
Lemma parse_verbnoun_cases text :
  parse_verbnoun search text =
  Ok match partition sep text with
     | Some (vn, pose) =>
         match split_ws vn with
         | [_] => (pose, Some (strip vn), search (u "me"), [CallerSearch (u "me")])
         | [v; n] => (pose, Some v, search n, [CallerSearch n])
         | _ => (text, None, None, [])
         end
     | None => (text, None, None, [])
     end.
Proof.
  unfold parse_verbnoun. rewrite (split_length sep text sep_nonempty), splitn_once.
  destruct (partition sep text) as [[vn pose]|]; [|reflexivity].
  rewrite bool_decide_eq_true_2 by eauto.
  cbn [unpack2]. change (Ok (vn, pose) ≫= ?k) with (k (vn, pose)). cbv beta iota.
  destruct (split_ws vn) as [|v [|n [|x rest]]]; reflexivity.
Qed.

(** [parse] never raises; its outcome, case by case. *)
Lemma parse_cases self :
  let text := effective_args self.(args) (ustring_eqb self.(cmdstring) (u "try")) in
  parse search self =
  Ok match partition sep text with
     | Some (vn, pose) =>
         match split_ws vn with
         | [_] => (updated self (spaced pose) (Some (strip vn)) (search (u "me")),
                   notice self ++ [CallerSearch (u "me")])
         | [v; n] => (updated self (spaced pose) (Some v) (search n),
                      notice self ++ [CallerSearch n])
         | _ => (updated self (spaced text) None None, notice self ++ [])
         end
     | None => (updated self (spaced text) None None, notice self ++ [])
     end.
Proof.
  intros text. unfold parse. fold text. rewrite parse_verbnoun_cases.
  destruct (partition sep text) as [[vn pose]|];
    [destruct (split_ws vn) as [|v [|n [|x rest]]]|];
    change (Ok ?a ≫= ?k) with (k a); cbv beta iota;
    rewrite glyph_space_spaced; reflexivity.
Qed.

Lemma searched_notice self : searched (notice self) = [].
Proof. unfold notice. by destruct (_ || _). Qed.

Lemma searched_app tr1 tr2 : searched (tr1 ++ tr2) = searched tr1 ++ searched tr2.
Proof. unfold searched. apply flat_map_app. Qed.

(** The directive depends on the command only through its [args] and on
    whether it was invoked as [try]. *)
Lemma resolve_pose_cases args implicit_try :
  let text := effective_args args implicit_try in
  resolve_pose search args implicit_try =
  Ok match partition sep text with
     | Some (vn, pose) =>
         match split_ws vn with
         | [_] => MkPoseDirective (Some (strip vn)) (Some (u "me")) (spaced pose)
         | [v; n] => MkPoseDirective (Some v) (Some n) (spaced pose)
         | _ => MkPoseDirective None None (spaced text)
         end
     | None => MkPoseDirective None None (spaced text)
     end.
Proof.
  intros text. unfold resolve_pose. rewrite parse_cases.
  assert (Htry : ustring_eqb (cmdstring (invoke args implicit_try)) (u "try") = implicit_try)
    by (by destruct implicit_try).
  rewrite Htry. cbn [invoke Pose.args]. fold text.
  change (Ok ?a ≫= ?k) with (k a). cbv beta.
  destruct (partition sep text) as [[vn pose]|];
    [destruct (split_ws vn) as [|v [|n [|x rest]]]|];
    unfold directive; cbn [fst snd Pose.verb Pose.args updated];
    rewrite searched_app, searched_notice; reflexivity.
Qed.

End WithSearch.

(** Membership in [non_space_chars] holds of the ten ASCII glyphs only:
    the other six literals are not ASCII and compare unequal to every
    [unicode] character. *)
Lemma in_non_space_chars_ascii c :
  in_non_space_chars [c] = true <-> c ∈ ascii_glyphs.
Proof.
  unfold ascii_glyphs. rewrite !elem_of_cons, elem_of_nil.
  unfold in_non_space_chars, non_space_chars, unicode_eq_str, ustring_eqb.
  cbn [existsb forallb N.ltb N.compare Pos.compare Pos.compare_cont andb].
  rewrite !orb_true_iff, !bool_decide_eq_true.
  split.
  - intros H.
    repeat (destruct H as [H|H]; [first [discriminate H | injection H as ->; tauto]|]).
    discriminate.
  - intros H. repeat (destruct H as [->|H]; [tauto|]). contradiction.
Qed.

Lemma ascii_glyphs_glyph_chars c : c ∈ ascii_glyphs -> c ∈ glyph_chars.
Proof.
  unfold ascii_glyphs, glyph_chars. rewrite !elem_of_cons, !elem_of_nil. tauto.
Qed.

Lemma spaced_glyph c rest : c ∈ ascii_glyphs -> spaced (c :: rest) = c :: rest.
Proof.
  intros H. apply in_non_space_chars_ascii in H. unfold spaced. by rewrite H.
Qed.

Lemma spaced_other c rest :
  c ∉ glyph_chars -> spaced (c :: rest) = u " " ++ strip (c :: rest).
Proof.
  intros H. unfold spaced.
  destruct (in_non_space_chars [c]) eqn:E; [|reflexivity].
  apply in_non_space_chars_ascii, ascii_glyphs_glyph_chars in E. contradiction.
Qed.

Lemma not_occurs_partition s : ~ occurs sep s -> partition sep s = None.
Proof.
  intros Hno. destruct (partition sep s) as [[a b]|] eqn:E; [|reflexivity].
  apply partition_first in E as [E _]. exfalso. apply Hno. by exists a, b.
Qed.

Lemma first_split_partition s a b :
  first_split sep s a b -> partition sep s = Some (a, b).
Proof.
  intros H. assert (Hocc : occurs sep s) by (exists a, b; apply H).
  destruct (occurs_partition _ _ Hocc) as (a' & b' & E).
  destruct (first_split_unique _ _ _ _ _ _ H (partition_first _ _ _ _ E)) as [-> ->].
  exact E.
Qed.

(** C1.  Whenever the separator occurs in the text that is split (the
    input, with the separator appended under the [try] alias), the text
    is cut at the leftmost separator and the part before it is tokenized
    on whitespace: two tokens give the verb and the target fragment, one
    token gives the verb and the target fragment [me]; the pose text is
    the part after the separator under the glyph-spacing rule.  The two
    examples of the specification evaluate as stated. *)
Theorem resolve_pose_verb_and_target :
  (forall search args implicit_try,
      occurs sep (effective_args args implicit_try) ->
      exists verbnoun pose d,
        first_split sep (effective_args args implicit_try) verbnoun pose /\
        resolve_pose search args implicit_try = Ok d /\
        (forall v n, split_ws verbnoun = [v; n] ->
                     pd_verb d = Some v /\ target_fragment d = Some n /\
                     glyph_space pose = Ok (pose_text d)) /\
        (forall v, split_ws verbnoun = [v] ->
                   pd_verb d = Some v /\ target_fragment d = Some (u "me") /\
                   glyph_space pose = Ok (pose_text d))) /\
  (forall args, effective_args args true = args ++ u "::") /\
  (forall search,
      resolve_pose search (u "get anvil::puts his back into it.") false =
      Ok {| pd_verb := Some (u "get"); target_fragment := Some (u "anvil");
            pose_text := u " puts his back into it." |}) /\
  (forall search,
      resolve_pose search (u "unlock door") true =
      Ok {| pd_verb := Some (u "unlock"); target_fragment := Some (u "door");
            pose_text := [] |}).
Proof.
  split; [|split; [reflexivity | split; intros search; rewrite resolve_pose_cases; reflexivity]].
  intros search args implicit_try Hocc.
  destruct (occurs_partition _ _ Hocc) as (vn & pose & E).
  exists vn, pose. rewrite resolve_pose_cases. cbv zeta. rewrite E.
  eexists. split; [by apply partition_first|]. split; [reflexivity|].
  split.
  - intros v n Hs. rewrite Hs. cbn. by rewrite glyph_space_spaced.
  - intros v Hs. rewrite Hs. cbn. rewrite glyph_space_spaced.
    by rewrite (split_ws_single_strip _ _ Hs).
Qed.

Lemma resolve_pose_verb_and_target_witness :
  occurs sep (effective_args (u "wave") true) /\
  exists verbnoun pose d,
    first_split sep (effective_args (u "wave") true) verbnoun pose /\
    resolve_pose (fun _ => None) (u "wave") true = Ok d /\
    (forall v n, split_ws verbnoun = [v; n] ->
                 pd_verb d = Some v /\ target_fragment d = Some n /\
                 glyph_space pose = Ok (pose_text d)) /\
    (forall v, split_ws verbnoun = [v] ->
               pd_verb d = Some v /\ target_fragment d = Some (u "me") /\
               glyph_space pose = Ok (pose_text d)).
Proof.
  assert (H : occurs sep (effective_args (u "wave") true))
    by (exists (u "wave"), []; reflexivity).
  split; [exact H|].
  exact (proj1 resolve_pose_verb_and_target (fun _ => None) (u "wave") true H).
Defined.

Lemma in_non_space_chars_other c :
  c ∉ ascii_glyphs -> in_non_space_chars [c] = false.
Proof.
  intros H. destruct (in_non_space_chars [c]) eqn:E; [|reflexivity].
  by apply in_non_space_chars_ascii in E.
Qed.

Lemma lstrip_app_sep a : lstrip (a ++ sep) = lstrip a ++ sep.
Proof.
  induction a as [|c a IH]; [reflexivity|].
  cbn [app lstrip]. by destruct (isspace c).
Qed.

Lemma rstrip_app_sep a : rstrip (a ++ sep) = a ++ sep.
Proof.
  induction a as [|c a IH]; [reflexivity|].
  cbn [app rstrip]. rewrite IH. by destruct a.
Qed.

(** The spacing step never hides an appended separator: the text with
    the separator comes out longer than the text without. *)
Lemma spaced_sep_differs args : spaced (args ++ sep) <> spaced args.
Proof.
  intros H. apply (f_equal (@length N)) in H.
  destruct args as [|c rest]; [discriminate H|].
  assert (E1 : spaced ((c :: rest) ++ sep) =
               if in_non_space_chars [c] then (c :: rest) ++ sep
               else u " " ++ strip ((c :: rest) ++ sep)) by reflexivity.
  assert (E2 : spaced (c :: rest) =
               if in_non_space_chars [c] then c :: rest
               else u " " ++ strip (c :: rest)) by reflexivity.
  rewrite E1, E2 in H. clear E1 E2.
  destruct (in_non_space_chars [c]).
  - rewrite length_app in H. change (length sep) with 2%nat in H. lia.
  - unfold strip in H. rewrite lstrip_app_sep, rstrip_app_sep in H.
    rewrite !length_app in H. change (length sep) with 2%nat in H.
    pose proof (TextFacts.rstrip_length (lstrip (c :: rest))) as Hle. lia.
Qed.

(** C2.  For an input without the separator, handed over by the command
    parser without surrounding whitespace and not invoked as [try], no
    verb is parsed and nothing is searched.  The pose text is what the
    glyph-spacing rule of the specification says, except for an input
    that begins with one of the six glyphs that are not ASCII: the
    literals of [non_space_chars] are byte strings, which equal no
    [unicode] character, so that such an input gets a leading space like
    ordinary text.  An input that begins with the ellipsis shows it; the
    example of the specification evaluates as stated. *)
Theorem resolve_pose_nonascii_glyph_spaced :
  (forall search args,
      ~ occurs sep args -> strip args = args ->
      exists d, resolve_pose search args false = Ok d /\
        pd_verb d = None /\ target_fragment d = None /\
        (forall c rest, args = c :: rest -> c ∈ glyph_chars -> c ∉ ascii_glyphs ->
           pose_text d = u " " ++ args /\ pose_text d <> glyph_rule_spec args) /\
        ((forall c rest, args = c :: rest -> c ∈ glyph_chars -> c ∈ ascii_glyphs) ->
           pose_text d = glyph_rule_spec args)) /\
  (forall search,
      resolve_pose search (0x2026 :: u "sighs.") false =
      Ok {| pd_verb := None; target_fragment := None;
            pose_text := 0x20 :: 0x2026 :: u "sighs." |}) /\
  glyph_rule_spec (0x2026 :: u "sighs.") = 0x2026 :: u "sighs." /\
  (forall search,
      resolve_pose search (u "smiles") false =
      Ok {| pd_verb := None; target_fragment := None; pose_text := u " smiles" |}).
Proof.
  split; [|split; [|split]];
    [|intros search; rewrite resolve_pose_cases; reflexivity
     |reflexivity
     |intros search; rewrite resolve_pose_cases; reflexivity].
  intros search args Hno Htrim. rewrite resolve_pose_cases. cbv zeta.
  change (effective_args args false) with args.
  rewrite (not_occurs_partition _ Hno).
  eexists. split; [reflexivity|]. cbn [pd_verb target_fragment pose_text].
  split; [reflexivity|]. split; [reflexivity|]. split.
  - intros c rest -> Hg Hna.
    assert (Hs : spaced (c :: rest) = u " " ++ c :: rest).
    { unfold spaced. by rewrite (in_non_space_chars_other _ Hna), Htrim. }
    split; [exact Hs|]. rewrite Hs. unfold glyph_rule_spec.
    rewrite bool_decide_eq_true_2 by exact Hg.
    intros E. apply (f_equal (@length N)) in E. simpl in E. lia.
  - intros Hascii. destruct args as [|c rest]; [reflexivity|].
    unfold glyph_rule_spec. destruct (decide (c ∈ glyph_chars)) as [Hg|Hg].
    + rewrite bool_decide_eq_true_2 by exact Hg.
      apply spaced_glyph. by apply (Hascii c rest).
    + rewrite bool_decide_eq_false_2 by exact Hg.
      rewrite (spaced_other _ _ Hg). by rewrite Htrim.
Qed.

Lemma resolve_pose_nonascii_glyph_spaced_witness :
  ~ occurs sep (0x2026 :: u "sighs.") /\
  strip (0x2026 :: u "sighs.") = 0x2026 :: u "sighs." /\
  exists d, resolve_pose (fun _ => None) (0x2026 :: u "sighs.") false = Ok d /\
    pd_verb d = None /\ target_fragment d = None /\
    (forall c rest, 0x2026 :: u "sighs." = c :: rest -> c ∈ glyph_chars -> c ∉ ascii_glyphs ->
       pose_text d = u " " ++ 0x2026 :: u "sighs." /\
       pose_text d <> glyph_rule_spec (0x2026 :: u "sighs.")) /\
    ((forall c rest, 0x2026 :: u "sighs." = c :: rest -> c ∈ glyph_chars -> c ∈ ascii_glyphs) ->
       pose_text d = glyph_rule_spec (0x2026 :: u "sighs.")).
Proof.
  assert (H1 : ~ occurs sep (0x2026 :: u "sighs."))
    by (apply partition_None; reflexivity).
  assert (H2 : strip (0x2026 :: u "sighs.") = 0x2026 :: u "sighs.") by reflexivity.
  split; [exact H1|]. split; [exact H2|].
  exact (proj1 resolve_pose_nonascii_glyph_spaced (fun _ => None)
           (0x2026 :: u "sighs.") H1 H2).
Defined.

(** The fallback of [parse], for either way of invoking the command: with
    no token or more than two before the leftmost separator, no verb is
    parsed, nothing is searched, and the spacing step is applied to the
    whole text that was split. *)
Lemma resolve_pose_fallback search args implicit_try verbnoun pose :
  first_split sep (effective_args args implicit_try) verbnoun pose ->
  (length (split_ws verbnoun) = 0 \/ 2 < length (split_ws verbnoun))%nat ->
  resolve_pose search args implicit_try =
    Ok (MkPoseDirective None None (spaced (effective_args args implicit_try))) /\
  search_calls search args implicit_try = Ok [].
Proof.
  intros Hsplit Hlen.
  rewrite resolve_pose_cases. unfold search_calls. rewrite parse_cases. cbv zeta.
  assert (Htry : ustring_eqb (cmdstring (invoke args implicit_try)) (u "try") = implicit_try)
    by (by destruct implicit_try).
  rewrite Htry. cbn [invoke Pose.args].
  rewrite (first_split_partition _ _ _ Hsplit).
  change (Ok ?a ≫= ?k) with (k a). cbv beta.
  destruct (split_ws verbnoun) as [|v [|n [|x rest]]]; cbn [length] in Hlen; try lia;
    (split; [reflexivity|]; cbn [fst snd];
     by rewrite searched_app, searched_notice).
Qed.

(** C3.  [parse] and [resolve_pose] return on every input.  When the
    separator occurs in the input but the text before the leftmost one has
    no token or more than two, no verb is parsed, nothing is searched, and
    the pose text is the whole input under the spacing step.  Invoked as
    [try], the fallback does not give the input back: the separator that
    line 638 appended stays in the pose text, which is never what the
    spacing step makes of the input.  [try a b c] poses the text
    [ a b c::]. *)
Theorem resolve_pose_try_fallback_keeps_separator :
  (forall search self, returns (parse search self)) /\
  (forall search args implicit_try, returns (resolve_pose search args implicit_try)) /\
  (forall search args verbnoun pose,
      first_split sep args verbnoun pose ->
      (length (split_ws verbnoun) = 0 \/ 2 < length (split_ws verbnoun))%nat ->
      exists d, resolve_pose search args false = Ok d /\
        pd_verb d = None /\ target_fragment d = None /\
        search_calls search args false = Ok [] /\
        glyph_space args = Ok (pose_text d)) /\
  (forall search args verbnoun pose,
      first_split sep (args ++ sep) verbnoun pose ->
      (length (split_ws verbnoun) = 0 \/ 2 < length (split_ws verbnoun))%nat ->
      exists d, resolve_pose search args true = Ok d /\
        pd_verb d = None /\ target_fragment d = None /\
        search_calls search args true = Ok [] /\
        glyph_space (args ++ sep) = Ok (pose_text d) /\
        glyph_space args <> Ok (pose_text d)) /\
  (forall search,
      resolve_pose search (u "a b c") true =
      Ok {| pd_verb := None; target_fragment := None; pose_text := u " a b c::" |}).
Proof.
  split; [intros search self; rewrite parse_cases; by eexists|].
  split; [intros search args implicit_try; rewrite resolve_pose_cases; by eexists|].
  split; [|split; [|intros search; rewrite resolve_pose_cases; reflexivity]].
  - intros search args vn pose Hsplit Hlen.
    destruct (resolve_pose_fallback search args false vn pose Hsplit Hlen) as [Hr Hs].
    eexists. split; [exact Hr|]. cbn [pd_verb target_fragment pose_text].
    rewrite glyph_space_spaced. by repeat split.
  - intros search args vn pose Hsplit Hlen.
    destruct (resolve_pose_fallback search args true vn pose Hsplit Hlen) as [Hr Hs].
    eexists. split; [exact Hr|]. cbn [pd_verb target_fragment pose_text effective_args].
    rewrite !glyph_space_spaced. repeat split; [exact Hs|].
    intros [= E]. by apply (spaced_sep_differs args).
Qed.

Lemma resolve_pose_try_fallback_keeps_separator_witness :
  first_split sep (u "a b c" ++ sep) (u "a b c") [] /\
  (length (split_ws (u "a b c")) = 0 \/ 2 < length (split_ws (u "a b c")))%nat /\
  exists d, resolve_pose (fun _ => None) (u "a b c") true = Ok d /\
    pd_verb d = None /\ target_fragment d = None /\
    search_calls (fun _ => None) (u "a b c") true = Ok [] /\
    glyph_space (u "a b c" ++ sep) = Ok (pose_text d) /\
    glyph_space (u "a b c") <> Ok (pose_text d).
Proof.
  assert (H1 : first_split sep (u "a b c" ++ sep) (u "a b c") [])
    by (apply partition_first; reflexivity).
  assert (H2 : (length (split_ws (u "a b c")) = 0 \/ 2 < length (split_ws (u "a b c")))%nat)
    by (right; vm_compute; lia).
  split; [exact H1|]. split; [exact H2|].
  exact (proj1 (proj2 (proj2 (proj2 resolve_pose_try_fallback_keeps_separator)))
           (fun _ => None) (u "a b c") (u "a b c") [] H1 H2).
Defined.

(** C4, as the specification words it, fails: [parse] does call the
    object search.  For [get anvil::x] it searches for [anvil]. *)
Lemma resolve_pose_invokes_search :
  ~ (forall search args implicit_try, search_calls search args implicit_try = Ok []).
Proof.
  intros H. specialize (H (fun _ => None) (u "get anvil::x") false).
  unfold search_calls in H. rewrite parse_cases in H.
  vm_compute in H. discriminate.
Qed.

(** C4, amended.  [parse] resolves the target itself: when it parses a
    verb it calls the object search once, with the target fragment, and
    stores what the search returns in [obj]; when it parses no verb it
    calls no search and [obj] is [None].  It leaves [cmdstring] and
    [switches] alone, and its outcome does not depend on the [verb] and
    [obj] left by an earlier run. *)
Theorem parse_searches_target_keeps_no_state :
  forall search self,
    exists r tr,
      parse search self = Ok (r, tr) /\
      cmdstring r = cmdstring self /\ switches r = switches self /\
      ((verb r = None /\ obj r = None /\ searched tr = []) \/
       (exists v noun, verb r = Some v /\ searched tr = [noun] /\
                       obj r = search noun /\
                       target_fragment (directive (r, tr)) = Some noun)) /\
      (forall old_verb old_obj,
          parse search (updated self (args self) old_verb old_obj) = Ok (r, tr)).
Proof.
  intros search self.
  assert (Hst : forall old_verb old_obj,
             parse search (updated self (args self) old_verb old_obj) = parse search self).
  { intros. rewrite !parse_cases. reflexivity. }
  rewrite parse_cases. cbv zeta.
  destruct (partition sep _) as [[vn pose]|] eqn:Ep;
    [destruct (split_ws vn) as [|v [|n [|x rest]]] eqn:Es|];
    eexists _, _; (split; [reflexivity|]);
    (split; [reflexivity|]); (split; [reflexivity|]);
    (split; [|intros; rewrite Hst, parse_cases; cbv zeta; rewrite Ep, ?Es; reflexivity]).
  all: unfold directive; cbn [fst snd verb obj updated];
    rewrite ?searched_app, ?searched_notice; cbn [searched flat_map app head].
  all: try (left; by repeat split).
  all: try (right; eexists _, _; by repeat split).
Qed.

End PoseFacts.

(* ===================================================================== *)
(** ** [CmdSpoof.func]: numeric parameters                                *)
(* ===================================================================== *)

Module SpoofFacts.

Import Say.

Lemma sub_nondigits_digits s : forallb is_digit (sub_nondigits s) = true.
Proof.
  unfold sub_nondigits. induction s as [|c s IH]; [reflexivity|].
  cbn [List.filter]. destruct (is_digit c) eqn:Hc; [|exact IH].
  cbn [forallb]. by rewrite Hc, IH.
Qed.

(** Sanitizing never lets [int] fail: what is converted is a non-empty
    string of digits or the integer given as fallback. *)
Lemma int_or_int s d : int (or_int (sub_nondigits s) d) = Ok (digits_or s d).
Proof.
  unfold or_int, digits_or, int.
  destruct (truthy (sub_nondigits s)) eqn:E; [|reflexivity].
  by rewrite E, sub_nondigits_digits.
Qed.

Lemma indent_param_value rhs :
  indent_param rhs =
  Ok match rhs with
     | Some r => digits_or r 20
     | None => 20%Z
     end.
Proof.
  destruct rhs as [r|]; [|reflexivity]. unfold indent_param.
  destruct r as [|c r]; [reflexivity|].
  cbn [truthy]. apply int_or_int.
Qed.

Lemma str_lt_asym a b : str_lt a b = true -> str_lt b a = false.
Proof.
  revert b; induction a as [|x a IH]; intros [|y b]; simpl; try done.
  destruct (N.ltb_spec x y), (N.ltb_spec y x); try done; try lia.
  apply IH.
Qed.

Lemma str_lt_connex a b : str_lt a b = false -> str_lt b a = false -> a = b.
Proof.
  revert b; induction a as [|x a IH]; intros [|y b]; simpl; try done.
  destruct (N.ltb_spec x y), (N.ltb_spec y x); try done.
  intros H1 H2. assert (x = y) as -> by lia. f_equal. by apply IH.
Qed.

Lemma py_lt_asym a b : py_lt a b = true -> py_lt b a = false.
Proof.
  destruct a, b; simpl; try done.
  - apply str_lt_asym.
  - intros H. apply Z.ltb_lt in H. apply Z.ltb_ge. lia.
Qed.

Lemma py_lt_connex a b : py_lt a b = false -> py_lt b a = false -> a = b.
Proof.
  destruct a, b; simpl; try done.
  - intros H1 H2. f_equal. by apply str_lt_connex.
  - intros H1 H2. apply Z.ltb_ge in H1, H2. f_equal. lia.
Qed.

(** Of two sanitized parameters, [max] and [min] pick one each. *)
Lemma int_max_min a b :
  exists w i,
    int (py_max (or_int (sub_nondigits a) 0) (or_int (sub_nondigits b) 0)) = Ok w /\
    int (py_min (or_int (sub_nondigits a) 0) (or_int (sub_nondigits b) 0)) = Ok i /\
    ((w = digits_or a 0 /\ i = digits_or b 0) \/
     (w = digits_or b 0 /\ i = digits_or a 0)).
Proof.
  pose proof (int_or_int a 0) as Ha. pose proof (int_or_int b 0) as Hb.
  unfold py_max, py_min.
  destruct (py_lt (or_int (sub_nondigits a) 0) (or_int (sub_nondigits b) 0)) eqn:E1;
  destruct (py_lt (or_int (sub_nondigits b) 0) (or_int (sub_nondigits a) 0)) eqn:E2;
    eexists _, _; (split; [eassumption|]); (split; [eassumption|]); try tauto.
  - rewrite (py_lt_asym _ _ E1) in E2. discriminate.
  - left. split; [reflexivity|].
    rewrite (py_lt_connex _ _ E1 E2) in Ha. congruence.
Qed.

Lemma parameters_split_ws (r : ustring) :
  (if truthy r then split_ws r else []) = split_ws r.
Proof. by destruct r. Qed.

(** Two or more parameters: each of the first two is sanitized, the empty
    outcome counting as 0, and the two numbers become width and indent. *)
Lemma justify_params_two r a b rest :
  split_ws r = a :: b :: rest ->
  exists w i,
    justify_params (Some r) = Ok (w, i) /\
    ((w = digits_or a 0 /\ i = digits_or b 0) \/
     (w = digits_or b 0 /\ i = digits_or a 0)).
Proof.
  intros Hs. unfold justify_params. rewrite parameters_split_ws, Hs.
  destruct (int_max_min a b) as (w & i & Hw & Hi & Hwi).
  exists w, i. split; [|exact Hwi].
  destruct rest as [|x rest];
    cbn -[int py_max py_min or_int sub_nondigits];
    rewrite Hw; cbn -[int py_max py_min or_int sub_nondigits];
    rewrite Hi; reflexivity.
Qed.

(** Fewer than two parameters, or no right-hand side: the defaults. *)
Lemma justify_params_default r :
  (length (split_ws r) <= 1)%nat ->
  justify_params None = Ok (72, 20)%Z /\ justify_params (Some r) = Ok (72, 20)%Z.
Proof.
  intros Hlen. split; [reflexivity|].
  unfold justify_params. rewrite parameters_split_ws.
  destruct (split_ws r) as [|a [|b rest]]; cbn [length] in *; try reflexivity. lia.
Qed.

Lemma justify_params_returns rhs : returns (justify_params rhs).
Proof.
  destruct rhs as [r|]; [|by eexists].
  destruct (split_ws r) as [|a [|b rest]] eqn:Hs.
  - exists (72, 20)%Z. apply justify_params_default. rewrite Hs. simpl. lia.
  - exists (72, 20)%Z. apply justify_params_default. rewrite Hs. simpl. lia.
  - destruct (justify_params_two r a b rest Hs) as (w & i & H & _). by eexists.
Qed.



Section WithFramework.

Variable strip_ansi : ustring -> ustring.
Variable justify : ustring -> Z -> ustring -> Z -> ustring.
Variable maxsize : Z.
Variable allocates : Z -> bool.


Lemma spaces_overflow n : (maxsize < n)%Z -> spaces maxsize allocates n = Raise OverflowError.
Proof. intros H. unfold spaces. by rewrite (proj2 (Z.ltb_lt maxsize n)) by exact H. Qed.



(** An indent beyond [sys.maxsize] makes [/indent] raise. *)
Lemma func_indent_overflow self :
  has_switch "indent" self = true ->
  args self <> [] ->
  let indent := match rhs self with Some r => digits_or r 20 | None => 20%Z end in
  (maxsize < indent)%Z ->
  func strip_ansi justify maxsize allocates self = Raise OverflowError.
Proof.
  intros Hind Hargs indent Hmax. unfold func.
  destruct (args self); [done|]. cbn [truthy negb].
  rewrite Hind, indent_param_value. fold indent.
  change (Ok indent ≫= ?k) with (k indent). cbv beta.
  by rewrite spaces_overflow.
Qed.

End WithFramework.

(** C5.  [justify_params] compares the two sanitized parameters as text,
    not as numbers: for the right-hand side [100 20] the width handed to
    [justify] is 20 and the indent is 100. *)
Theorem justify_params_orders_as_text :
  justify_params (Some (u "100 20")) = Ok (20, 100)%Z.
Proof. reflexivity. Qed.




End SpoofFacts.

(* ===================================================================== *)
(** ** [CmdSay.func], [CmdOoc.func]: escaped values in a broadcast        *)
(* ===================================================================== *)

Module SayFacts.

Import Say.

Lemma replace_char_app old new a b :
  replace_char old new (a ++ b) = replace_char old new a ++ replace_char old new b.
Proof. unfold replace_char. apply flat_map_app. Qed.

(** The two passes of [escape_braces] double every brace and nothing else. *)
Lemma escape_braces_doubles v :
  escape_braces v = flat_map (fun c => if is_brace c then [c; c] else [c]) v.
Proof.
  unfold escape_braces, replace_char, is_brace.
  induction v as [|c v IH]; [reflexivity|].
  cbn [flat_map]. rewrite flat_map_app, IH. f_equal.
  destruct (N.eqb_spec c lbrace) as [->|Hl]; [reflexivity|].
  cbn [flat_map orb app]. by destruct (N.eqb_spec c rbrace) as [->|Hr].
Qed.

Lemma reads_nil : reads [] [].
Proof. intros rest. cbn [app]. by destruct (scan Outside rest). Qed.

Lemma reads_app p1 s1 p2 s2 :
  reads p1 s1 -> reads p2 s2 -> reads (p1 ++ p2) (s1 ++ s2).
Proof.
  intros H1 H2 rest. rewrite <- app_assoc, H1, H2.
  destruct (scan Outside rest); cbn; [|reflexivity]. by rewrite app_assoc.
Qed.

Lemma reads_char c : is_brace c = false -> reads [Lit c] [c].
Proof.
  unfold is_brace. intros H rest. apply orb_false_iff in H as [Hl Hr].
  cbn [app scan]. rewrite Hl, Hr. by destruct (scan Outside rest).
Qed.

(** A text without braces reads as itself. *)
Lemma reads_plain s : forallb (fun c => negb (is_brace c)) s = true -> reads (map Lit s) s.
Proof.
  induction s as [|c s IH]; [intros _; apply reads_nil|].
  cbn [forallb]. intros [Hc Hs]%andb_true_iff. apply negb_true_iff in Hc.
  apply (reads_app [Lit c] [c]); [by apply reads_char | by apply IH].
Qed.

Lemma scan_in_field name s rest :
  forallb (fun c => negb (is_brace c)) s = true ->
  scan (InField name) (s ++ rbrace :: rest) = cons (Field (name ++ s)) <$> scan Outside rest.
Proof.
  revert name; induction s as [|c s IH]; intros name.
  - intros _. cbn [app scan]. rewrite app_nil_r. reflexivity.
  - cbn [forallb]. intros [Hc Hs]%andb_true_iff.
    apply negb_true_iff, orb_false_iff in Hc as [Hl Hr].
    cbn [app scan]. rewrite Hl, Hr, (IH _ Hs), <- app_assoc. reflexivity.
Qed.

(** A placeholder reads as one field. *)
Lemma reads_field c name :
  forallb (fun c => negb (is_brace c)) (c :: name) = true ->
  reads [Field (c :: name)] (lbrace :: (c :: name) ++ [rbrace]).
Proof.
  intros H rest. pose proof H as H'. cbn [forallb] in H'.
  apply andb_true_iff in H' as [Hc Hn].
  apply negb_true_iff, orb_false_iff in Hc as [Hl Hr].
  cbn [app scan]. rewrite N.eqb_refl, Hl, Hr, <- app_assoc. cbn [app].
  by rewrite (scan_in_field [c] name rest Hn).
Qed.

(** An escaped value reads as the value: none of its braces opens or
    closes a placeholder. *)
Lemma reads_escape_braces v : reads (map Lit v) (escape_braces v).
Proof.
  rewrite escape_braces_doubles.
  induction v as [|c v IH]; [apply reads_nil|].
  cbn [flat_map map].
  apply (reads_app [Lit c] _ (map Lit v)); [|exact IH].
  destruct (is_brace c) eqn:E; [|by apply reads_char].
  unfold is_brace in E. intros rest. cbn [app scan].
  destruct (N.eqb_spec c lbrace) as [->|Hl].
  - cbn. by destruct (scan Outside rest).
  - cbn [orb] in E. apply N.eqb_eq in E as ->. cbn. by destruct (scan Outside rest).
Qed.

Lemma reads_scan ps s : reads ps s -> scan Outside s = Some ps.
Proof.
  intros H. specialize (H []). rewrite app_nil_r in H. rewrite H.
  cbn. by rewrite app_nil_r.
Qed.

Lemma substitute_app mapping p1 p2 t1 t2 :
  substitute mapping p1 = inr t1 -> substitute mapping p2 = inr t2 ->
  substitute mapping (p1 ++ p2) = inr (t1 ++ t2).
Proof.
  revert t1; induction p1 as [|[c|name] p1 IH]; intros t1; cbn [substitute app].
  - by intros [= <-].
  - destruct (substitute mapping p1) as [e|t]; [discriminate|].
    intros [= <-] H2. by rewrite (IH t eq_refl H2).
  - destruct (mapping !! name) as [v|]; [|discriminate].
    destruct (substitute mapping p1) as [e|t]; [discriminate|].
    intros [= <-] H2. rewrite (IH t eq_refl H2). by rewrite app_assoc.
Qed.

Lemma substitute_lits mapping v : substitute mapping (map Lit v) = inr v.
Proof. induction v as [|c v IH]; [reflexivity|]. cbn. by rewrite IH. Qed.

Lemma substitute_field mapping name v :
  mapping !! name = Some v -> substitute mapping [Field name] = inr v.
Proof. intros H. cbn [substitute]. rewrite H. by rewrite app_nil_r. Qed.

Lemma renders_app mapping s1 t1 s2 t2 :
  renders mapping s1 t1 -> renders mapping s2 t2 ->
  renders mapping (s1 ++ s2) (t1 ++ t2).
Proof.
  intros (p1 & R1 & S1) (p2 & R2 & S2). exists (p1 ++ p2).
  split; [by apply reads_app | by apply substitute_app].
Qed.

Lemma renders_plain mapping s :
  forallb (fun c => negb (is_brace c)) s = true -> renders mapping s s.
Proof.
  intros H. exists (map Lit s). split; [by apply reads_plain | apply substitute_lits].
Qed.

Lemma renders_escaped mapping v : renders mapping (escape_braces v) v.
Proof.
  exists (map Lit v). split; [apply reads_escape_braces | apply substitute_lits].
Qed.

Lemma renders_char mapping name :
  mapping !! u "char" = Some name -> renders mapping (u "{char}") name.
Proof.
  intros H. exists [Field (u "char")].
  split; [by apply (reads_field 0x63 (u "har")) | by apply substitute_field].
Qed.

Lemma renders_format mapping s t : renders mapping s t -> format mapping s = inr t.
Proof.
  intros (ps & R & S). unfold format. by rewrite (reads_scan _ _ R).
Qed.

Lemma undouble_replace c s : undouble c (replace_char c [c; c] s) = Some s.
Proof.
  unfold replace_char. induction s as [|x s IH]; [reflexivity|].
  cbn [flat_map]. destruct (N.eqb_spec x c) as [->|Hne].
  - cbn [app undouble]. rewrite N.eqb_refl, IH. reflexivity.
  - cbn [app undouble]. apply N.eqb_neq in Hne. rewrite Hne, IH. reflexivity.
Qed.

#[local] Arguments isspace : simpl never.

Lemma rstrip_app_nil a b : rstrip b = [] -> rstrip (a ++ b) = rstrip a.
Proof.
  intros Hb. induction a as [|x a IH]; [exact Hb|].
  cbn [app rstrip]. by rewrite IH.
Qed.

Lemma rstrip_app_cons a b : rstrip b <> [] -> rstrip (a ++ b) = a ++ rstrip b.
Proof.
  intros Hb. induction a as [|x a IH]; [reflexivity|].
  cbn [app rstrip]. rewrite IH. destruct (rstrip b); [done|]. by destruct a.
Qed.

(** Stripping trailing whitespace and doubling a character that is not
    whitespace can be done in either order. *)
Lemma rstrip_replace_char c s :
  isspace c = false ->
  rstrip (replace_char c [c; c] s) = replace_char c [c; c] (rstrip s).
Proof.
  intros Hc. unfold replace_char. induction s as [|x s IH]; [reflexivity|].
  cbn [flat_map]. destruct (rstrip s) as [|r rs] eqn:Hr.
  - cbn [flat_map] in IH. rewrite (rstrip_app_nil _ _ IH).
    cbn [rstrip]. rewrite Hr.
    destruct (N.eqb_spec x c) as [->|Hne].
    + cbn [rstrip]. rewrite Hc. cbn [flat_map app]. by rewrite N.eqb_refl.
    + cbn [rstrip]. destruct (isspace x); [reflexivity|].
      cbn [flat_map app]. apply N.eqb_neq in Hne. by rewrite Hne.
  - assert (Hne : rstrip (flat_map (fun c0 => if c0 =? c then [c; c] else [c0]) s) <> []).
    { rewrite IH. cbn [flat_map]. by destruct (r =? c). }
    rewrite (rstrip_app_cons _ _ Hne), IH.
    cbn [rstrip]. rewrite Hr. reflexivity.
Qed.

Section SpoofToRoom.

Variable strip_ansi : ustring -> ustring.
Variable justify : ustring -> Z -> ustring -> Z -> ustring.
Variable maxsize : Z.
Variable allocates : Z -> bool.

(** A plain spoof to the room: one message, in which the pipes of the
    text are doubled and its braces escaped. *)
Lemma func_plain_room self :
  switches self = [] ->
  existsb (N.eqb 0x2E) (cmdstring self) = false ->
  here self = true ->
  args self <> [] ->
  func strip_ansi justify maxsize allocates self =
  Ok [RoomMsg (escape_braces (replace_char pipe [pipe; pipe] (rstrip (args self)))) false].
Proof.
  intros Hsw Hdot Hhere Hargs. unfold func, has_switch.
  rewrite Hsw, Hhere, Hdot. cbn [existsb orb negb].
  destruct (args self) as [|c rest] eqn:Ha; [done|]. cbn [truthy negb].
  unfold emit. by rewrite (rstrip_replace_char pipe (c :: rest) eq_refl).
Qed.

End SpoofToRoom.

#[local] Ltac render_piece :=
  first [ apply renders_escaped
        | by apply renders_char
        | apply renders_plain; reflexivity ].

#[local] Ltac render_all :=
  apply renders_format; rewrite <- ?app_assoc;
  repeat (apply renders_app; [render_piece|]); render_piece.

Lemma say_ooc_room_format mapping name speech :
  mapping !! u "char" = Some name ->
  format mapping (say_ooc_room speech) =
  inr (u "[OOC] " ++ name ++ u " says, |n" ++ [dquote] ++ u "|w" ++ speech
         ++ u "|n" ++ [dquote]).
Proof.
  intros H. unfold say_ooc_room.
  change (u "[OOC] {char} says, |n") with (u "[OOC] " ++ u "{char}" ++ u " says, |n").
  render_all.
Qed.

Lemma say_room_format mapping name verb prepend speech :
  mapping !! u "char" = Some name ->
  format mapping (say_room verb prepend speech) =
  inr (name ++ u " " ++ verb ++ u ", |n" ++ [dquote] ++ prepend ++ speech
         ++ u "|n" ++ [dquote]).
Proof.
  intros H. unfold say_room.
  change (u "{char} ") with (u "{char}" ++ u " ").
  render_all.
Qed.

Lemma ooc_room_format mapping name args :
  mapping !! u "char" = Some name ->
  format mapping (ooc_room args) = inr (u "[OOC " ++ name ++ u "] " ++ args).
Proof.
  intros H. unfold ooc_room.
  change (u "[OOC {char}] ") with (u "[OOC " ++ u "{char}" ++ u "] ").
  render_all.
Qed.

Lemma warms_up_format mapping name args :
  mapping !! u "char" = Some name ->
  format mapping (SayCmd.warms_up args) =
  inr (name ++ u " warms up vocally with " ++ [dquote] ++ args ++ u "|n" ++ [dquote]).
Proof.
  intros H. unfold SayCmd.warms_up.
  change (u "{char} warms up vocally with ")
    with (u "{char}" ++ u " warms up vocally with ").
  render_all.
Qed.

(** The room broadcast of a spoken line is the first of its messages. *)
Lemma say_messages_room ooc verb prepend speech has_account name text raw :
  SayCmd.Out (RoomMsg text raw) ∈
    map SayCmd.Out (say_messages ooc verb prepend speech has_account name) ->
  text = if ooc then say_ooc_room speech else say_room verb prepend speech.
Proof.
  unfold say_messages.
  destruct ooc, has_account; cbn [map];
    rewrite ?elem_of_cons, elem_of_nil; intros H;
    repeat (destruct H as [H|H]); by try injection H as -> _.
Qed.

(** C7, as the specification words it, fails: [CmdSay.func] escapes the
    braces of the speech and leaves its pipes alone.  The speech [|rfire]
    goes out with its single pipe, which the markup layer reads as a
    colour code; the doubled text is nowhere in the broadcast. *)
Lemma say_pipe_stays_live :
  ~ (forall search self sp sp' outs searched speech text raw mapping nm,
        SayCmd.func search self sp = Ok (sp', outs, searched) ->
        SayCmd.opt "verb" self = false ->
        SayCmd.parse_say search (strip (SayCmd.args self)) = Ok (speech, searched) ->
        SayCmd.Out (RoomMsg text raw) ∈ outs ->
        mapping !! u "char" = Some nm ->
        exists before after,
          format mapping text =
          inr (before ++ replace_char pipe [pipe; pipe] speech ++ after)).
Proof.
  intros H.
  pose (self := SayCmd.MkCmdSay [] (u "|rfire") true true false (u "Ann")).
  pose (sp := SayCmd.MkSpeaker None None None).
  assert (Hm : ({[ u "char" := u "Ann" ]} : gmap ustring ustring) !! u "char"
               = Some (u "Ann")) by reflexivity.
  destruct (H (fun _ => None) self sp sp
              [SayCmd.Out (RoomMsg (say_room (u "says") (u "|w") (u "|rfire")) false)]
              [] (u "|rfire") (say_room (u "says") (u "|w") (u "|rfire")) false
              {[ u "char" := u "Ann" ]} (u "Ann"))
    as (before & after & E); [reflexivity|reflexivity|reflexivity|by left|exact Hm|].
  rewrite (say_room_format _ _ _ _ _ Hm) in E. injection E as E.
  assert (Hno : ~ occurs (replace_char pipe [pipe; pipe] (u "|rfire"))
                  (u "Ann" ++ u " " ++ u "says" ++ u ", |n" ++ [dquote] ++ u "|w"
                     ++ u "|rfire" ++ u "|n" ++ [dquote]))
    by (apply PyFacts.partition_None; reflexivity).
  apply Hno. by exists before, after.
Qed.

(** C7, amended.  Every room broadcast of [CmdSay.func] and [CmdOoc.func]
    is a template into which the user-supplied values were put with their
    braces escaped, the template itself left as written.  Whatever the
    values are, substitution therefore succeeds, fills the template's own
    placeholder with the speaker's name and shows each value character for
    character, pipes included: no brace of a value opens or closes a
    placeholder, and a pipe of a value stays as it was typed.  Pipes are
    doubled in a plain spoof to the room only (line 163): it reads back,
    pairs of braces and of pipes undone, as the text that was spoofed. *)
Theorem say_values_render_verbatim :
  (forall search self sp sp' outs searched text raw mapping nm,
      SayCmd.func search self sp = Ok (sp', outs, searched) ->
      SayCmd.Out (RoomMsg text raw) ∈ outs ->
      mapping !! u "char" = Some nm ->
      (SayCmd.opt "verb" self = true /\
       format mapping text =
       inr (nm ++ u " warms up vocally with " ++ [dquote] ++ strip (SayCmd.args self)
              ++ u "|n" ++ [dquote]))
      \/
      (SayCmd.opt "verb" self = false /\
       exists speech,
         SayCmd.parse_say search (strip (SayCmd.args self)) = Ok (speech, searched) /\
         format mapping text =
         inr (if SayCmd.opt "ooc" self
              then u "[OOC] " ++ nm ++ u " says, |n" ++ [dquote] ++ u "|w" ++ speech
                     ++ u "|n" ++ [dquote]
              else nm ++ u " " ++ default (u "says") (SayCmd.say_verb sp) ++ u ", |n"
                     ++ [dquote] ++ SayCmd.prepend_of sp ++ speech ++ u "|n" ++ [dquote]))) /\
  (forall args0 here has_account name outs text raw mapping nm,
      SayCmd.ooc_func args0 here has_account name = Ok outs ->
      RoomMsg text raw ∈ outs ->
      mapping !! u "char" = Some nm ->
      format mapping text = inr (u "[OOC " ++ nm ++ u "] " ++ strip args0)) /\
  (forall strip_ansi justify maxsize allocates self,
      switches self = [] -> existsb (N.eqb 0x2E) (cmdstring self) = false ->
      here self = true -> args self <> [] ->
      exists text shown,
        func strip_ansi justify maxsize allocates self = Ok [RoomMsg text false] /\
        (forall mapping, format mapping text = inr shown) /\
        undouble pipe shown = Some (rstrip (args self))).
Proof.
  split; [|split].
  - intros search self sp sp' outs searched text raw mapping nm Hf Hin Hm.
    unfold SayCmd.func in Hf.
    destruct (negb (SayCmd.here self && SayCmd.has_char self)).
    { destruct (truthy (strip (SayCmd.args self))); injection Hf as <- <- <-;
        apply list_elem_of_singleton in Hin; discriminate. }
    destruct (negb (truthy (strip (SayCmd.args self)))).
    { injection Hf as <- <- <-. apply list_elem_of_singleton in Hin. discriminate. }
    destruct (SayCmd.opt "verb" self) eqn:Hverb.
    { injection Hf as <- <- <-. apply list_elem_of_singleton in Hin.
      injection Hin as -> _. left. split; [reflexivity|]. by apply warms_up_format. }
    destruct (SayCmd.opt "quote" self).
    { destruct (_ <? _)%nat; injection Hf as <- <- <-; by apply elem_of_nil in Hin. }
    destruct (SayCmd.parse_say search (strip (SayCmd.args self))) as [[speech s]|e];
      [|discriminate Hf].
    change (Ok (speech, s) ≫= ?k) with (k (speech, s)) in Hf. cbv beta iota in Hf.
    injection Hf as <- <- <-. apply say_messages_room in Hin as ->.
    right. split; [reflexivity|]. exists speech. split; [reflexivity|].
    destruct (SayCmd.opt "ooc" self);
      [by apply say_ooc_room_format | by apply say_room_format].
  - intros args0 here has_account name outs text raw mapping nm Hf Hin Hm.
    unfold SayCmd.ooc_func in Hf.
    destruct (strip args0) as [|c rest] eqn:Ha.
    { injection Hf as <-. apply list_elem_of_singleton in Hin. discriminate. }
    cbn [truthy negb index nth_error] in Hf.
    change (Ok c ≫= ?k) with (k c) in Hf. cbv beta in Hf.
    destruct ((c =? dquote) || (c =? 0x27)).
    { injection Hf as <-. apply list_elem_of_singleton in Hin. discriminate. }
    destruct ((c =? 0x3A) || (c =? 0x3B)).
    { injection Hf as <-. apply list_elem_of_singleton in Hin. discriminate. }
    destruct here; [|discriminate Hf]. injection Hf as <-.
    assert (text = ooc_room (c :: rest)) as ->.
    { destruct has_account; rewrite ?elem_of_cons, elem_of_nil in Hin;
        repeat (destruct Hin as [Hin|Hin]); by try injection Hin as -> _. }
    by apply ooc_room_format.
  - intros strip_ansi justify maxsize allocates self Hsw Hdot Hhere Hargs.
    eexists _, _. split; [by apply func_plain_room|].
    split; [intros mapping; apply renders_format, renders_escaped
           | apply undouble_replace].
Qed.

Lemma say_values_render_verbatim_witness :
  let self := SayCmd.MkCmdSay [u "ooc"] (u "{char} is {here}") true true false (u "Rulan") in
  let sp := SayCmd.MkSpeaker None None None in
  let text := say_ooc_room (u "{char} is {here}") in
  let mapping : gmap ustring ustring := {[ u "char" := u "Rulan" ]} in
  SayCmd.func (fun _ => None) self sp = Ok (sp, [SayCmd.Out (RoomMsg text false)], []) /\
  SayCmd.Out (RoomMsg text false) ∈ [SayCmd.Out (RoomMsg text false)] /\
  mapping !! u "char" = Some (u "Rulan") /\
  ((SayCmd.opt "verb" self = true /\
    format mapping text =
    inr (u "Rulan" ++ u " warms up vocally with " ++ [dquote] ++ strip (SayCmd.args self)
           ++ u "|n" ++ [dquote]))
   \/
   (SayCmd.opt "verb" self = false /\
    exists speech,
      SayCmd.parse_say (fun _ => None) (strip (SayCmd.args self)) = Ok (speech, []) /\
      format mapping text =
      inr (if SayCmd.opt "ooc" self
           then u "[OOC] " ++ u "Rulan" ++ u " says, |n" ++ [dquote] ++ u "|w" ++ speech
                  ++ u "|n" ++ [dquote]
           else u "Rulan" ++ u " " ++ default (u "says") (SayCmd.say_verb sp) ++ u ", |n"
                  ++ [dquote] ++ SayCmd.prepend_of sp ++ speech ++ u "|n" ++ [dquote]))).
Proof.
  intros self sp text mapping.
  assert (Hf : SayCmd.func (fun _ => None) self sp
               = Ok (sp, [SayCmd.Out (RoomMsg text false)], [])) by reflexivity.
  assert (Hin : SayCmd.Out (RoomMsg text false) ∈ [SayCmd.Out (RoomMsg text false)])
    by apply list_elem_of_here.
  assert (Hm : mapping !! u "char" = Some (u "Rulan")) by reflexivity.
  split; [exact Hf|]. split; [exact Hin|]. split; [exact Hm|].
  exact (proj1 say_values_render_verbatim (fun _ => None) self sp sp _ [] text false
           mapping (u "Rulan") Hf Hin Hm).
Defined.

End SayFacts.

(* ===================================================================== *)
(** ** Rendering, the character's state and the random source             *)
(* ===================================================================== *)

Module RenderingFacts.

Import Say Inlinefuncs.








End RenderingFacts.

(* ===================================================================== *)
(** ** Surfaces and consumables                                           *)
(* ===================================================================== *)

Module ObjectsFacts.

Import Objects.

Lemma db_get_set_eq (w : world) o k v : db_get (db_set w o k v) o k = Some v.
Proof. unfold db_get, db_set, attrs_of. rewrite lookup_insert_eq. apply lookup_insert_eq. Qed.

Lemma db_get_set_ne (w : world) o k v o' k' :
  (o, k) <> (o', k') -> db_get (db_set w o k v) o' k' = db_get w o' k'.
Proof.
  intros Hne. unfold db_get, db_set, attrs_of.
  destruct (decide (o = o')) as [->|Ho].
  - rewrite lookup_insert_eq. cbn. rewrite lookup_insert_ne; [done|congruence].
  - by rewrite lookup_insert_ne.
Qed.

Lemma db_get_remove_eq (w : world) o k : db_get (remove w o k) o k = None.
Proof. unfold db_get, remove, attrs_of. rewrite lookup_insert_eq. apply lookup_delete_eq. Qed.

Lemma db_get_remove_ne (w : world) o k o' k' :
  (o, k) <> (o', k') -> db_get (remove w o k) o' k' = db_get w o' k'.
Proof.
  intros Hne. unfold db_get, remove, attrs_of.
  destruct (decide (o = o')) as [->|Ho].
  - rewrite lookup_insert_eq. cbn. rewrite lookup_delete_ne; [done|congruence].
  - by rewrite lookup_insert_ne.
Qed.

Lemma has_true (w : world) o k : has w o k = true <-> is_Some (db_get w o k).
Proof. unfold has. apply bool_decide_eq_true. Qed.

Lemma has_false (w : world) o k : has w o k = false <-> db_get w o k = None.
Proof.
  unfold has. rewrite bool_decide_eq_false. fold (db_get w o k).
  rewrite <- eq_None_not_Some. reflexivity.
Qed.

#[local] Ltac db_simpl :=
  repeat first
    [ rewrite db_get_set_eq
    | rewrite db_get_remove_eq
    | rewrite db_get_set_ne by congruence
    | rewrite db_get_remove_ne by congruence ].

Lemma surface_of_dict (w : world) o d :
  db_get w o "surface" = Some (VDict d) -> surface_of w o = d.
Proof. unfold surface_of. by intros ->. Qed.

Lemma surface_of_missing (w : world) o :
  db_get w o "surface" = None -> surface_of w o = ∅.
Proof. unfold surface_of. by intros ->. Qed.

Lemma on_surface_dict (w : world) o caller :
  caller ∈ dom (surface_of w o) -> db_get w o "surface" = Some (VDict (surface_of w o)).
Proof.
  unfold surface_of. destruct (db_get w o "surface") as [[b|z|d]|]; try set_solver.
Qed.

Section WithLocation.

Variable location : objid -> option objid.

(** [surface_put] when the caller is on the surface already. *)
Lemma surface_put_present self caller connection (w : world) :
  caller ∈ dom (surface_of w self) ->
  surface_put location self caller connection w = (w, Ok false).
Proof.
  intros Hin. pose proof (on_surface_dict _ _ _ Hin) as Hd.
  unfold surface_put.
  rewrite (proj2 (has_true w self "surface")) by (rewrite Hd; eauto).
  rewrite Hd. by rewrite bool_decide_eq_true_2.
Qed.

(** [surface_put] when the caller is not on the surface yet. *)
Lemma surface_put_absent self caller connection (w : world) :
  (db_get w self "surface" = None \/ exists d, db_get w self "surface" = Some (VDict d)) ->
  caller ∉ dom (surface_of w self) ->
  exists w',
    surface_put location self caller connection w =
      (w', match location caller with Some _ => Ok true | None => Raise AttributeError end) /\
    db_get w' self "surface" = Some (VDict (<[caller := connection]> (surface_of w self))) /\
    db_get w' self "locked" = Some (VBool true) /\
    db_get w' caller "locked" = Some (VBool true) /\
    (forall o k, (o, k) <> (self, "surface") -> (o, k) <> (self, "locked") ->
                 (o, k) <> (caller, "locked") -> db_get w' o k = db_get w o k).
Proof.
  intros Hwf Hnot. unfold surface_put.
  assert (Hres : (_ ← notify_room location caller; Ok true) =
                 match location caller with
                 | Some _ => Ok true
                 | None => Raise AttributeError
                 end) by (unfold notify_room; by destruct (location caller)).
  destruct (has w self "surface") eqn:Hhas.
  - apply has_true in Hhas. destruct Hwf as [Hnone|[d Hd]].
    { rewrite Hnone in Hhas. by destruct Hhas. }
    rewrite Hd. rewrite (surface_of_dict _ _ _ Hd) in Hnot |- *.
    rewrite bool_decide_eq_false_2 by exact Hnot.
    eexists. split; [by rewrite Hres|].
    destruct (decide (caller = self)) as [->|Hne]; repeat split; db_simpl; try done.
    all: intros o k H1 H2 H3; db_simpl; done.
  - apply has_false in Hhas. rewrite (surface_of_missing _ _ Hhas) in Hnot |- *.
    rewrite db_get_set_eq.
    rewrite bool_decide_eq_false_2 by exact Hnot.
    eexists. split; [by rewrite Hres|].
    destruct (decide (caller = self)) as [->|Hne]; repeat split; db_simpl; try done.
    all: intros o k H1 H2 H3; db_simpl; done.
Qed.

Lemma size_lt_1 (d : gmap objid ustring) :
  (size d <? 1)%nat = bool_decide (d = ∅).
Proof.
  destruct (decide (d = ∅)) as [->|Hne].
  - by rewrite map_size_empty.
  - rewrite bool_decide_eq_false_2 by done. apply Nat.ltb_ge.
    apply map_size_non_empty_iff in Hne. lia.
Qed.

(** [surface_off] when the caller is on the surface. *)
Lemma surface_off_present self caller (w : world) :
  caller ∈ dom (surface_of w self) ->
  caller <> self ->
  exists w',
    surface_off location self caller w =
      (w', match location caller with Some _ => Ok true | None => Raise AttributeError end) /\
    db_get w' self "surface" = Some (VDict (delete caller (surface_of w self))) /\
    db_get w' self "locked" =
      (if bool_decide (delete caller (surface_of w self) = ∅) then None
       else db_get w self "locked") /\
    db_get w' caller "locked" = None /\
    (forall o k, (o, k) <> (self, "surface") -> (o, k) <> (self, "locked") ->
                 (o, k) <> (caller, "locked") -> db_get w' o k = db_get w o k).
Proof.
  intros Hin Hne. pose proof (on_surface_dict _ _ _ Hin) as Hd.
  unfold surface_off. rewrite Hd. rewrite bool_decide_eq_true_2 by exact Hin.
  assert (Hres : (_ ← notify_room location caller; Ok true) =
                 match location caller with
                 | Some _ => Ok true
                 | None => Raise AttributeError
                 end) by (unfold notify_room; by destruct (location caller)).
  rewrite size_lt_1.
  eexists. split; [by rewrite Hres|].
  destruct (bool_decide (delete caller (surface_of w self) = ∅));
    repeat split; db_simpl; try done.
  all: intros o k H1 H2 H3; db_simpl; done.
Qed.

(** [surface_off] when the caller is not on the surface. *)
Lemma surface_off_absent self caller (w : world) d :
  db_get w self "surface" = Some (VDict d) ->
  caller ∉ dom d ->
  surface_off location self caller w = (w, Ok false).
Proof.
  intros Hd Hnot. unfold surface_off. rewrite Hd.
  by rewrite bool_decide_eq_false_2.
Qed.

(** [surface_off] on an object that never had a surface map: the test
    [caller in None] raises. *)
Lemma surface_off_missing self caller (w : world) :
  db_get w self "surface" = None ->
  surface_off location self caller w = (w, Raise TypeError).
Proof. intros Hd. unfold surface_off. by rewrite Hd. Qed.

Lemma fresh_surface_inv (w : world) o : fresh w o -> surface_inv w o.
Proof.
  intros [Hs Hl]. split.
  - destruct Hs as [Hs|Hs]; [by left | right; eauto].
  - unfold locked. rewrite Hl. split; [by intros [? ?]|].
    intros Hne. exfalso. apply Hne.
    destruct Hs as [Hs|Hs]; [by apply surface_of_missing | by apply surface_of_dict].
Qed.

(** One call by somebody else keeps the invariant. *)
Lemma step_surface_inv self (w : world) c :
  caller_of c <> self -> surface_inv w self -> surface_inv (step location self w c) self.
Proof.
  intros Hne [Hwf Hiff]. destruct c as [caller connection | caller]; cbn [caller_of step] in *.
  - destruct (decide (caller ∈ dom (surface_of w self))) as [Hin|Hnot].
    + rewrite surface_put_present by exact Hin. by split.
    + destruct (surface_put_absent self caller connection w Hwf Hnot)
        as (w' & -> & Hs & Hl & _). cbn [fst]. split; [right; eauto|].
      unfold locked. rewrite Hl, (surface_of_dict _ _ _ Hs).
      split; [|eauto]. intros _ Hempty.
      apply (f_equal (fun m => m !! caller)) in Hempty.
      by rewrite lookup_insert_eq, lookup_empty in Hempty.
  - destruct Hwf as [Hnone|[d Hd]].
    { rewrite surface_off_missing by exact Hnone. split; [by left | exact Hiff]. }
    destruct (decide (caller ∈ dom d)) as [Hin|Hnot].
    + rewrite <- (surface_of_dict _ _ _ Hd) in Hin.
      destruct (surface_off_present self caller w Hin Hne)
        as (w' & -> & Hs & Hl & _). cbn [fst]. split; [right; eauto|].
      unfold locked. rewrite Hl, (surface_of_dict _ _ _ Hs).
      destruct (decide (delete caller (surface_of w self) = ∅)) as [He|He].
      * rewrite bool_decide_eq_true_2 by exact He. split; [by intros [? ?] | done].
      * rewrite bool_decide_eq_false_2 by exact He. split; [done|].
        intros _. apply Hiff. intros Hempty. rewrite Hempty in Hin. set_solver.
    + rewrite (surface_off_absent self caller w d Hd Hnot). split; [right; eauto | exact Hiff].
Qed.

Lemma run_surface_inv self cs (w : world) :
  Forall (fun c => caller_of c <> self) cs ->
  surface_inv w self -> surface_inv (run location self w cs) self.
Proof.
  intros Hcs. revert w. induction Hcs as [|c cs Hc Hcs IH]; intros w Hinv; [exact Hinv|].
  cbn [run fold_left]. apply IH. by apply step_surface_inv.
Qed.

End WithLocation.

(** C9.  The lock does not follow the surface map when the object is put
    on its own surface: after the object and somebody else have been put
    on a fresh object, taking the object off leaves the other on the
    surface map and the object without its ['locked'] attribute, so that
    [at_before_move] lets the occupied object move.  [surface_off] keeps
    the object's lock while the surface is occupied (line 275) and then
    removes the lock of the caller (line 277), who here is the object. *)
Theorem surface_off_by_object_unlocks_occupied :
  forall location self other c1 c2 (w : world),
    fresh w self ->
    other <> self ->
    let w' := run location self w [Put self c1; Put other c2; Off self] in
    surface_of w' self = {[ other := c2 ]} /\
    surface_of w' self <> ∅ /\
    ~ locked w' self /\
    Things.at_before_move self w' = true.
Proof.
  intros location self other c1 c2 w Hfresh Hne w'. subst w'.
  cbn [run fold_left step].
  assert (Hempty : surface_of w self = ∅).
  { unfold surface_of. destruct (proj1 Hfresh) as [E|E]; rewrite E; reflexivity. }
  assert (Hwf : db_get w self "surface" = None \/
                exists d, db_get w self "surface" = Some (VDict d)).
  { destruct (proj1 Hfresh) as [E|E]; [left; exact E | right; eexists; exact E]. }
  assert (Hn1 : self ∉ dom (surface_of w self)) by (rewrite Hempty; set_solver).
  destruct (surface_put_absent location self self c1 w Hwf Hn1)
    as (w1 & -> & Hs1 & _ & _ & _). cbn [fst]. rewrite Hempty in Hs1.
  assert (Hn2 : other ∉ dom (surface_of w1 self)).
  { unfold surface_of. rewrite Hs1, elem_of_dom, lookup_insert_ne by done.
    rewrite lookup_empty. by intros [? ?]. }
  destruct (surface_put_absent location self other c2 w1
              (or_intror (ex_intro _ _ Hs1)) Hn2)
    as (w2 & -> & Hs2 & _ & _ & _). cbn [fst].
  unfold surface_of in Hs2 at 1. rewrite Hs1 in Hs2.
  unfold surface_off. rewrite Hs2.
  rewrite bool_decide_eq_true_2
    by (apply elem_of_dom; rewrite lookup_insert_ne by done;
        rewrite lookup_insert_eq; eauto).
  cbn [fst].
  assert (Hdel : delete self (<[other := c2]> (<[self := c1]> (∅ : gmap objid ustring)))
                 = {[ other := c2 ]}).
  { apply map_eq. intros i. destruct (decide (i = self)) as [->|Hi].
    - rewrite lookup_delete_eq. symmetry. by apply lookup_singleton_ne.
    - rewrite lookup_delete_ne by done.
      destruct (decide (i = other)) as [->|Ho].
      + by rewrite lookup_insert_eq, lookup_singleton_eq.
      + rewrite !lookup_insert_ne by done. by rewrite lookup_singleton_ne. }
  rewrite Hdel.
  assert (Hsize : (size ({[ other := c2 ]} : gmap objid ustring) <? 1)%nat = false)
    by (by rewrite map_size_singleton).
  rewrite Hsize.
  assert (Hs3 : surface_of (remove (db_set w2 self "surface" (VDict {[ other := c2 ]}))
                              self "locked") self = {[ other := c2 ]}).
  { unfold surface_of. rewrite db_get_remove_ne by congruence.
    by rewrite db_get_set_eq. }
  assert (Hl3 : ~ locked (remove (db_set w2 self "surface" (VDict {[ other := c2 ]}))
                            self "locked") self).
  { unfold locked. rewrite db_get_remove_eq. by intros [? ?]. }
  split; [exact Hs3|]. split; [rewrite Hs3; apply insert_non_empty|].
  split; [exact Hl3|].
  unfold Things.at_before_move.
  destruct (has _ self "locked") eqn:E; [|reflexivity].
  apply has_true in E. by destruct Hl3.
Qed.

Lemma surface_off_by_object_unlocks_occupied_witness :
  let w' := run (fun _ => Some 3%positive) 1%positive (∅ : world)
              [Put 1%positive (u "on"); Put 2%positive (u "beside"); Off 1%positive] in
  fresh (∅ : world) 1%positive /\
  2%positive <> 1%positive /\
  surface_of w' 1%positive = {[ 2%positive := u "beside" ]} /\
  surface_of w' 1%positive <> ∅ /\
  ~ locked w' 1%positive /\
  Things.at_before_move 1%positive w' = true.
Proof.
  intros w'.
  assert (H1 : fresh (∅ : world) 1%positive) by (split; [by left | done]).
  assert (H2 : 2%positive <> 1%positive) by discriminate.
  split; [exact H1|]. split; [exact H2|].
  exact (surface_off_by_object_unlocks_occupied (fun _ => Some 3%positive)
           1%positive 2%positive (u "on") (u "beside") ∅ H1 H2).
Defined.

(** For callers other than the object itself the lock does follow the
    surface map.  Start from an object with no (or an empty) surface map
    and no ['locked'] attribute: after every sequence of calls the
    object is ['locked'] exactly when its surface map is non-empty.
    [surface_put] returns [False] and changes nothing for a caller already
    on the surface; otherwise it records the caller with its connection
    and sets ['locked'] on object and caller.  [surface_off] removes the
    caller, removes the caller's ['locked'], and removes the object's
    ['locked'] exactly when the surface map has become empty. *)
Lemma surface_locked_iff_occupied :
  forall location self,
    (forall (w : world) cs,
        fresh w self ->
        Forall (fun c => caller_of c <> self) cs ->
        (locked (run location self w cs) self <->
         surface_of (run location self w cs) self <> ∅)) /\
    (forall (w : world) caller connection,
        caller ∈ dom (surface_of w self) ->
        surface_put location self caller connection w = (w, Ok false)) /\
    (forall (w : world) caller connection,
        (db_get w self "surface" = None \/
         exists d, db_get w self "surface" = Some (VDict d)) ->
        caller ∉ dom (surface_of w self) ->
        exists w',
          surface_put location self caller connection w =
            (w', match location caller with
                 | Some _ => Ok true
                 | None => Raise AttributeError
                 end) /\
          surface_of w' self = <[caller := connection]> (surface_of w self) /\
          db_get w' self "locked" = Some (VBool true) /\
          db_get w' caller "locked" = Some (VBool true)) /\
    (forall (w : world) caller,
        caller ∈ dom (surface_of w self) ->
        caller <> self ->
        exists w',
          surface_off location self caller w =
            (w', match location caller with
                 | Some _ => Ok true
                 | None => Raise AttributeError
                 end) /\
          surface_of w' self = delete caller (surface_of w self) /\
          (surface_of w' self = ∅ -> db_get w' self "locked" = None) /\
          (surface_of w' self <> ∅ -> db_get w' self "locked" = db_get w self "locked") /\
          db_get w' caller "locked" = None).
Proof.
  intros location self. split; [|split; [|split]].
  - intros w cs Hfresh Hcs.
    apply (run_surface_inv location self cs w Hcs (fresh_surface_inv _ _ Hfresh)).
  - intros. by apply surface_put_present.
  - intros w caller connection Hwf Hnot.
    destruct (surface_put_absent location self caller connection w Hwf Hnot)
      as (w' & Hput & Hs & Hl & Hc & _).
    exists w'. by rewrite (surface_of_dict _ _ _ Hs).
  - intros w caller Hin Hne.
    destruct (surface_off_present location self caller w Hin Hne)
      as (w' & Hoff & Hs & Hl & Hc & _).
    exists w'. rewrite (surface_of_dict _ _ _ Hs). repeat split; try done.
    + intros He. by rewrite Hl, bool_decide_eq_true_2.
    + intros He. by rewrite Hl, bool_decide_eq_false_2.
Qed.

Lemma surface_locked_iff_occupied_witness :
  fresh (∅ : world) 1%positive /\
  Forall (fun c => caller_of c <> 1%positive)
         [Put 2%positive (u "on"); Put 3%positive (u "at"); Off 2%positive] /\
  (locked (run (fun _ => None) 1%positive ∅
             [Put 2%positive (u "on"); Put 3%positive (u "at"); Off 2%positive]) 1%positive <->
   surface_of (run (fun _ => None) 1%positive ∅
                 [Put 2%positive (u "on"); Put 3%positive (u "at"); Off 2%positive]) 1%positive
     <> ∅).
Proof.
  assert (H1 : fresh (∅ : world) 1%positive) by (by split; [left|]).
  assert (H2 : Forall (fun c => caller_of c <> 1%positive)
                 [Put 2%positive (u "on"); Put 3%positive (u "at"); Off 2%positive])
    by (repeat constructor; discriminate).
  split; [exact H1|]. split; [exact H2|].
  exact (proj1 (surface_locked_iff_occupied (fun _ => None) 1%positive) ∅ _ H1 H2).
Defined.

(** C10.  On an object with an integer ['health'], [consume] stores one
    less, or zero when that would be below one, and returns the stored
    value, which is never negative; every other attribute is left alone.
    On an object without ['health'] it returns [None] and changes
    nothing. *)
Theorem consume_decrements_and_clamps :
  forall self caller (w : world),
    (forall h,
        db_get w self "health" = Some (VInt h) ->
        exists w',
          consume self caller w = (w', Ok (Some (VInt (Z.max 0 (h - 1))))) /\
          db_get w' self "health" = Some (VInt (Z.max 0 (h - 1))) /\
          (0 <= Z.max 0 (h - 1))%Z /\
          (1 < h -> Z.max 0 (h - 1) = h - 1)%Z /\
          (forall o k, (o, k) <> (self, "health") -> db_get w' o k = db_get w o k)) /\
    (db_get w self "health" = None -> consume self caller w = (w, Ok None)).
Proof.
  intros self caller w. split.
  - intros h Hh. unfold consume.
    rewrite (proj2 (has_true w self "health")) by (rewrite Hh; eauto).
    rewrite Hh. cbn [as_int].
    destruct (Z.ltb_spec (h - 1) 1) as [Hlt|Hge].
    + replace (Z.max 0 (h - 1)) with 0%Z by lia.
      eexists. split; [by rewrite db_get_set_eq|]. db_simpl.
      repeat split; try lia. intros o k Hne. by db_simpl.
    + replace (Z.max 0 (h - 1)) with (h - 1)%Z by lia.
      eexists. split; [by rewrite db_get_set_eq|]. db_simpl.
      repeat split; try lia. intros o k Hne. by db_simpl.
  - intros Hnone. unfold consume. by rewrite (proj2 (has_false w self "health")).
Qed.

Lemma consume_decrements_and_clamps_witness :
  db_get (db_set ∅ 1%positive "health" (VInt 1)) 1%positive "health" = Some (VInt 1) /\
  exists w',
    consume 1%positive 2%positive (db_set ∅ 1%positive "health" (VInt 1)) =
      (w', Ok (Some (VInt (Z.max 0 (1 - 1))))) /\
    db_get w' 1%positive "health" = Some (VInt (Z.max 0 (1 - 1))) /\
    (0 <= Z.max 0 (1 - 1))%Z /\
    (1 < 1 -> Z.max 0 (1 - 1) = 1 - 1)%Z /\
    (forall o k, (o, k) <> (1%positive, "health") ->
                 db_get w' o k = db_get (db_set ∅ 1%positive "health" (VInt 1)) o k).
Proof.
  assert (H : db_get (db_set ∅ 1%positive "health" (VInt 1)) 1%positive "health"
              = Some (VInt 1)) by reflexivity.
  split; [exact H|].
  exact (proj1 (consume_decrements_and_clamps 1%positive 2%positive
                  (db_set ∅ 1%positive "health" (VInt 1))) 1%Z H).
Defined.


End ObjectsFacts.

(* ===================================================================== *)
(** ** Surfaces, moving and consumables, continued                        *)
(* ===================================================================== *)

Module ThingsFacts.

Import Objects ObjectsFacts Things.

#[local] Ltac db_simpl :=
  repeat first
    [ rewrite db_get_set_eq
    | rewrite db_get_remove_eq
    | rewrite db_get_set_ne by congruence
    | rewrite db_get_remove_ne by congruence ].

Lemma at_before_move_locked self (w : world) :
  at_before_move self w = true <-> ~ locked w self.
Proof.
  unfold at_before_move, locked. destruct (has w self "locked") eqn:E.
  - apply has_true in E. split; [done | tauto].
  - apply has_false in E. rewrite E. split; [|done]. by intros _ [? ?].
Qed.

(** X1.  While somebody other than the object itself is on its surface,
    [at_before_move] vetoes every move of the object, and once the last
    one has left it allows moves again. *)
Theorem occupied_surface_cannot_move :
  forall location self (w : world) cs,
    fresh w self ->
    Forall (fun c => caller_of c <> self) cs ->
    (at_before_move self (run location self w cs) = true <->
     surface_of (run location self w cs) self = ∅).
Proof.
  intros location self w cs Hfresh Hcs.
  destruct (run_surface_inv location self cs w Hcs (fresh_surface_inv _ _ Hfresh))
    as [_ Hiff].
  rewrite at_before_move_locked, Hiff.
  destruct (decide (surface_of (run location self w cs) self = ∅)); tauto.
Qed.

Lemma occupied_surface_cannot_move_witness :
  fresh (∅ : world) 1%positive /\
  Forall (fun c => caller_of c <> 1%positive) [Put 2%positive (u "on")] /\
  (at_before_move 1%positive (run (fun _ => None) 1%positive ∅ [Put 2%positive (u "on")]) = true <->
   surface_of (run (fun _ => None) 1%positive ∅ [Put 2%positive (u "on")]) 1%positive = ∅).
Proof.
  assert (H1 : fresh (∅ : world) 1%positive) by (by split; [left|]).
  assert (H2 : Forall (fun c => caller_of c <> 1%positive) [Put 2%positive (u "on")])
    by (repeat constructor; discriminate).
  split; [exact H1|]. split; [exact H2|].
  exact (occupied_surface_cannot_move (fun _ => None) 1%positive ∅ _ H1 H2).
Defined.

(** One call changes the surface map as [occupy] says, whoever calls. *)
Lemma step_occupy location self (w : world) c :
  surface_wf w self ->
  surface_wf (step location self w c) self /\
  surface_of (step location self w c) self = occupy (surface_of w self) c.
Proof.
  intros Hwf. destruct c as [caller connection | caller]; cbn [step occupy].
  - destruct (decide (caller ∈ dom (surface_of w self))) as [Hin|Hnot].
    + rewrite surface_put_present by exact Hin. cbn [fst].
      by rewrite bool_decide_eq_true_2.
    + destruct (surface_put_absent location self caller connection w Hwf Hnot)
        as (w' & -> & Hs & _). cbn [fst].
      rewrite bool_decide_eq_false_2 by exact Hnot.
      split; [right; eauto | by apply surface_of_dict].
  - destruct Hwf as [Hnone|[d Hd]].
    { rewrite surface_off_missing by exact Hnone. cbn [fst].
      rewrite (surface_of_missing _ _ Hnone), delete_empty. split; [by left | done]. }
    rewrite (surface_of_dict _ _ _ Hd).
    destruct (decide (caller ∈ dom d)) as [Hin|Hnot].
    + unfold surface_off. rewrite Hd, bool_decide_eq_true_2 by exact Hin. cbn [fst].
      assert (Hs : forall w0 : world,
                 db_get (remove (if (size (delete caller d) <? 1)%nat
                                 then remove (db_set w0 self "surface" (VDict (delete caller d)))
                                        self "locked"
                                 else db_set w0 self "surface" (VDict (delete caller d)))
                           caller "locked") self "surface"
                 = Some (VDict (delete caller d))).
      { intros w0. destruct (size (delete caller d) <? 1)%nat; by db_simpl. }
      split; [right; eauto | by apply surface_of_dict].
    + rewrite (surface_off_absent location self caller w d Hd Hnot). cbn [fst].
      rewrite (surface_of_dict _ _ _ Hd), delete_id by (by apply not_elem_of_dom).
      split; [right; eauto | done].
Qed.

Lemma run_occupy location self cs (w : world) :
  surface_wf w self ->
  surface_of (run location self w cs) self = fold_left occupy cs (surface_of w self).
Proof.
  revert w. induction cs as [|c cs IH]; intros w Hwf; [done|].
  cbn [run fold_left]. destruct (step_occupy location self w c Hwf) as [Hwf' Hs].
  rewrite <- Hs. by apply IH.
Qed.

(** X2.  After any sequence of calls the surface map holds exactly the
    callers that were put on it and have not left since, each with the
    connection of the put that entered it: a put by a caller already on
    the surface does not replace the connection. *)
Theorem surface_map_tracks_calls :
  forall location self cs (w : world),
    surface_wf w self ->
    surface_of (run location self w cs) self = fold_left occupy cs (surface_of w self).
Proof. intros. by apply run_occupy. Qed.

Lemma surface_map_tracks_calls_witness :
  surface_wf (∅ : world) 1%positive /\
  surface_of (run (fun _ => None) 1%positive ∅
                [Put 2%positive (u "on"); Put 2%positive (u "under"); Off 3%positive]) 1%positive =
  fold_left occupy [Put 2%positive (u "on"); Put 2%positive (u "under"); Off 3%positive]
            (surface_of (∅ : world) 1%positive).
Proof.
  assert (H : surface_wf (∅ : world) 1%positive) by (by left).
  split; [exact H|].
  exact (surface_map_tracks_calls (fun _ => None) 1%positive _ ∅ H).
Defined.

(** X3.  Sitting down and getting up again: for a caller other than the
    object who was not on the surface, a put followed by an off leaves the
    surface map as it was and the caller unlocked, and the object ends up
    locked exactly when somebody else is on its surface.  Its lock is
    therefore as before when the lock reflected the surface; an object
    that was locked while its surface was empty comes out unlocked. *)
Theorem surface_put_then_off :
  forall location self caller connection (w : world),
    surface_wf w self ->
    caller <> self ->
    caller ∉ dom (surface_of w self) ->
    let w' := run location self w [Put caller connection; Off caller] in
    surface_of w' self = surface_of w self /\
    (locked w' self <-> surface_of w self <> ∅) /\
    ~ locked w' caller /\
    (surface_inv w self -> (locked w' self <-> locked w self)) /\
    (locked w self -> surface_of w self = ∅ -> ~ locked w' self).
Proof.
  intros location self caller connection w Hwf Hne Hnot w'.
  pose proof (run_occupy location self
                [Put caller connection; Off caller] w Hwf) as Hs.
  fold w' in Hs. cbn [fold_left occupy] in Hs.
  rewrite bool_decide_eq_false_2 in Hs by exact Hnot.
  rewrite delete_insert_id in Hs by (by apply not_elem_of_dom).
  assert (Hlock : locked w' self <-> surface_of w self <> ∅).
  { subst w'. cbn [run fold_left step].
    destruct (surface_put_absent location self caller connection w Hwf Hnot)
      as (w1 & -> & Hs1 & Hl1 & _). cbn [fst].
    assert (Hin : caller ∈ dom (surface_of w1 self)).
    { rewrite (surface_of_dict _ _ _ Hs1). apply elem_of_dom.
      rewrite lookup_insert_eq. eauto. }
    destruct (surface_off_present location self caller w1 Hin Hne)
      as (w2 & -> & _ & Hl2 & _). cbn [fst].
    rewrite (surface_of_dict _ _ _ Hs1) in Hl2.
    rewrite delete_insert_id in Hl2 by (by apply not_elem_of_dom).
    unfold locked. rewrite Hl2, Hl1.
    destruct (decide (surface_of w self = ∅)) as [E|E].
    - rewrite bool_decide_eq_true_2 by exact E. split; [by intros [? ?] | done].
    - rewrite bool_decide_eq_false_2 by exact E. split; [done | eauto]. }
  assert (Hcaller : ~ locked w' caller).
  { subst w'. cbn [run fold_left step].
    destruct (surface_put_absent location self caller connection w Hwf Hnot)
      as (w1 & -> & Hs1 & _). cbn [fst].
    assert (Hin : caller ∈ dom (surface_of w1 self)).
    { rewrite (surface_of_dict _ _ _ Hs1). apply elem_of_dom.
      rewrite lookup_insert_eq. eauto. }
    destruct (surface_off_present location self caller w1 Hin Hne)
      as (w2 & -> & _ & _ & Hc & _). cbn [fst].
    unfold locked. rewrite Hc. by intros [? ?]. }
  split; [exact Hs|]. split; [exact Hlock|]. split; [exact Hcaller|]. split.
  - intros [_ Hiff]. by rewrite Hlock, Hiff.
  - intros _ Hempty. rewrite Hlock. tauto.
Qed.

Lemma surface_put_then_off_witness :
  let w : world := db_set ∅ 1%positive "locked" (VBool true) in
  let w' := run (fun _ => None) 1%positive w [Put 2%positive (u "on"); Off 2%positive] in
  surface_wf w 1%positive /\ 2%positive <> 1%positive /\
  (2%positive ∉ dom (surface_of w 1%positive)) /\
  surface_of w' 1%positive = surface_of w 1%positive /\
  (locked w' 1%positive <-> surface_of w 1%positive <> ∅) /\
  ~ locked w' 2%positive /\
  (surface_inv w 1%positive -> (locked w' 1%positive <-> locked w 1%positive)) /\
  (locked w 1%positive -> surface_of w 1%positive = ∅ -> ~ locked w' 1%positive).
Proof.
  intros w w'.
  assert (H1 : surface_wf w 1%positive) by (by left).
  assert (H2 : 2%positive <> 1%positive) by discriminate.
  assert (H3 : 2%positive ∉ dom (surface_of w 1%positive))
    by (rewrite elem_of_dom; by intros [? ?]).
  split; [exact H1|]. split; [exact H2|]. split; [exact H3|].
  exact (surface_put_then_off (fun _ => None) 1%positive 2%positive (u "on") w H1 H2 H3).
Defined.

(** X4.  [surface_off] by a caller who is not on the surface changes
    nothing: it returns [False] when the object has a surface map and
    raises [TypeError] when the object never had one. *)
Theorem surface_off_not_on_surface :
  forall location self caller (w : world),
    caller ∉ dom (surface_of w self) ->
    (surface_off location self caller w).1 = w /\
    (db_get w self "surface" = None ->
     (surface_off location self caller w).2 = Raise TypeError) /\
    (forall d, db_get w self "surface" = Some (VDict d) ->
               (surface_off location self caller w).2 = Ok false).
Proof.
  intros location self caller w Hnot. unfold surface_off, surface_of in *.
  destruct (db_get w self "surface") as [[b|z|d]|]; cbn [fst snd]; try done.
  rewrite bool_decide_eq_false_2 by exact Hnot. cbn [fst snd].
  repeat split; try done.
Qed.

Lemma surface_off_not_on_surface_witness :
  (2%positive ∉ dom (surface_of (∅ : world) 1%positive)) /\
  (surface_off (fun _ => None) 1%positive 2%positive ∅).1 = ∅ /\
  (db_get (∅ : world) 1%positive "surface" = None ->
   (surface_off (fun _ => None) 1%positive 2%positive ∅).2 = Raise TypeError) /\
  (forall d, db_get (∅ : world) 1%positive "surface" = Some (VDict d) ->
             (surface_off (fun _ => None) 1%positive 2%positive ∅).2 = Ok false).
Proof.
  assert (H : 2%positive ∉ dom (surface_of (∅ : world) 1%positive)) by set_solver.
  split; [exact H|].
  exact (surface_off_not_on_surface (fun _ => None) 1%positive 2%positive ∅ H).
Defined.

Lemma fresh_surface_empty (w : world) o : fresh w o -> surface_of w o = ∅.
Proof.
  intros [[Hs|Hs] _]; [by apply surface_of_missing | by apply surface_of_dict].
Qed.

(** X5.  A caller can be on two surfaces at once, and leaving either one
    removes its ['locked'] attribute: it is then free to move although it
    is still recorded on the other surface. *)
Theorem leaving_one_surface_unlocks_caller :
  forall location a b c conn1 conn2 (w : world),
    a <> b -> c <> a -> c <> b ->
    fresh w a -> fresh w b ->
    let w1 := run location a w [Put c conn1] in
    let w2 := run location b w1 [Put c conn2] in
    let w3 := run location a w2 [Off c] in
    locked w2 c /\
    c ∈ dom (surface_of w3 b) /\
    ~ locked w3 c /\
    at_before_move c w3 = true.
Proof.
  intros location a b c conn1 conn2 w Hab Hca Hcb Hfa Hfb w1 w2 w3.
  subst w1 w2 w3. cbn [run fold_left step].
  assert (Hwfa : surface_wf w a) by (by apply fresh_surface_inv).
  assert (Hna : c ∉ dom (surface_of w a))
    by (rewrite (fresh_surface_empty _ _ Hfa); set_solver).
  destruct (surface_put_absent location a c conn1 w Hwfa Hna)
    as (w1 & -> & Hs1 & _ & _ & Hframe1). cbn [fst].
  assert (Hfb1 : fresh w1 b).
  { destruct Hfb as [Hsb Hlb]. split; rewrite Hframe1 by congruence; done. }
  assert (Hwfb : surface_wf w1 b) by (by apply fresh_surface_inv).
  assert (Hnb : c ∉ dom (surface_of w1 b))
    by (rewrite (fresh_surface_empty _ _ Hfb1); set_solver).
  destruct (surface_put_absent location b c conn2 w1 Hwfb Hnb)
    as (w2 & -> & Hs2 & _ & Hl2 & Hframe2). cbn [fst].
  assert (Hin : c ∈ dom (surface_of w2 a)).
  { unfold surface_of. rewrite Hframe2, Hs1 by congruence.
    apply elem_of_dom. rewrite lookup_insert_eq. eauto. }
  destruct (surface_off_present location a c w2 Hin Hca)
    as (w3 & -> & _ & _ & Hl3 & Hframe3). cbn [fst].
  split; [unfold locked; rewrite Hl2; eauto|].
  split.
  { unfold surface_of. rewrite Hframe3, Hs2 by congruence.
    apply elem_of_dom. rewrite lookup_insert_eq. eauto. }
  assert (Hnl : ~ locked w3 c) by (unfold locked; rewrite Hl3; by intros [? ?]).
  split; [exact Hnl | by apply at_before_move_locked].
Qed.

Lemma leaving_one_surface_unlocks_caller_witness :
  let w1 := run (fun _ => None) 1%positive (∅ : world) [Put 3%positive (u "on")] in
  let w2 := run (fun _ => None) 2%positive w1 [Put 3%positive (u "at")] in
  let w3 := run (fun _ => None) 1%positive w2 [Off 3%positive] in
  locked w2 3%positive /\
  3%positive ∈ dom (surface_of w3 2%positive) /\
  ~ locked w3 3%positive /\
  at_before_move 3%positive w3 = true.
Proof.
  apply (leaving_one_surface_unlocks_caller (fun _ => None) 1%positive 2%positive
           3%positive (u "on") (u "at") ∅); try discriminate; by split; [left|].
Defined.

Lemma consume_health self caller (w : world) h :
  db_get w self "health" = Some (VInt h) ->
  db_get (consume self caller w).1 self "health" = Some (VInt (Z.max 0 (h - 1))).
Proof.
  intros Hh. unfold consume.
  rewrite (proj2 (has_true w self "health")) by (rewrite Hh; eauto).
  rewrite Hh. cbn [as_int fst].
  destruct (Z.ltb_spec (h - 1) 1); db_simpl; do 2 f_equal; lia.
Qed.

(** X6.  Consuming an object [n] times, [n] at least one, leaves its
    health at [max(0, health - n)]: it counts down to zero and stays
    there. *)
Theorem consume_counts_down :
  forall self caller n (w : world) h,
    db_get w self "health" = Some (VInt h) ->
    (0 < n)%nat ->
    db_get (consume_times n self caller w) self "health" =
    Some (VInt (Z.max 0 (h - Z.of_nat n))).
Proof.
  intros self caller n. induction n as [|n IH]; intros w h Hh Hn; [lia|].
  cbn [consume_times]. pose proof (consume_health self caller w h Hh) as H1.
  destruct n as [|n].
  - cbn [consume_times]. rewrite H1. do 2 f_equal; lia.
  - rewrite (IH _ _ H1) by lia. do 2 f_equal; lia.
Qed.

Lemma consume_counts_down_witness :
  db_get (db_set ∅ 1%positive "health" (VInt 2)) 1%positive "health" = Some (VInt 2) /\
  (0 < 5)%nat /\
  db_get (consume_times 5 1%positive 2%positive (db_set ∅ 1%positive "health" (VInt 2)))
         1%positive "health" = Some (VInt (Z.max 0 (2 - Z.of_nat 5))).
Proof.
  assert (H : db_get (db_set ∅ 1%positive "health" (VInt 2)) 1%positive "health"
              = Some (VInt 2)) by reflexivity.
  assert (Hn : (0 < 5)%nat) by lia.
  split; [exact H|]. split; [exact Hn|].
  exact (consume_counts_down 1%positive 2%positive 5 _ 2%Z H Hn).
Defined.

Lemma use_up_health self (w : world) h :
  db_get w self "health" = Some (VInt h) ->
  use_up self w = Ok (db_set w self "health" (VInt (h - 1)), (h - 1 <? 1)%Z).
Proof.
  intros Hh. unfold use_up.
  rewrite (proj2 (has_true w self "health")) by (rewrite Hh; eauto).
  by rewrite Hh.
Qed.

Lemma eat_held self caller sc h :
  db_get (attrs sc) self "health" = Some (VInt h) ->
  (eat self caller true sc).1.1 =
  {| attrs := db_set (attrs sc) self "health" (VInt (h - 1));
     loc := if (h - 1 <? 1)%Z then delete self (loc sc) else loc sc |}.
Proof.
  intros Hh. unfold eat. cbn [negb]. rewrite (use_up_health _ _ _ Hh).
  destruct (h - 1 <? 1)%Z; unfold vanish; cbn [attrs loc];
    destruct (tell_room _ caller _) as [ts r]; reflexivity.
Qed.

(** X7.  [eat] does not clamp: after [n] bites by a holder the health is
    [health - n], below zero if need be.  The object stays where it is as
    long as fewer bites than its health were taken, and has no location
    from the first bite that brings its health below one. *)
Theorem eat_until_gone :
  forall self caller n sc h,
    db_get (attrs sc) self "health" = Some (VInt h) ->
    db_get (attrs (eat_times n self caller sc)) self "health"
      = Some (VInt (h - Z.of_nat n)) /\
    loc (eat_times n self caller sc) !! self =
      (if bool_decide (n = 0%nat \/ (Z.of_nat n < h)%Z) then loc sc !! self else None).
Proof.
  intros self caller n. induction n as [|n IH]; intros sc h Hh.
  - cbn [eat_times]. rewrite Hh, bool_decide_eq_true_2 by (by left).
    split; [do 2 f_equal; lia | done].
  - cbn [eat_times]. rewrite (eat_held self caller sc h Hh).
    set (sc1 := {| attrs := _; loc := _ |}).
    assert (H1 : db_get (attrs sc1) self "health" = Some (VInt (h - 1)))
      by (subst sc1; cbn [attrs]; by db_simpl).
    destruct (IH sc1 (h - 1)%Z H1) as [IHh IHl]. rewrite IHh, IHl.
    split; [do 2 f_equal; lia|].
    subst sc1. cbn [loc].
    destruct (decide (Z.of_nat (S n) < h)%Z) as [Hlt|Hge].
    + rewrite (bool_decide_eq_true_2 (S n = 0%nat \/ _)) by (by right).
      rewrite bool_decide_eq_true_2 by (destruct n; [by left | right; lia]).
      destruct (Z.ltb_spec (h - 1) 1); [lia | done].
    + rewrite (bool_decide_eq_false_2 (S n = 0%nat \/ _)) by (intros [?|?]; [done | lia]).
      case_bool_decide as Hc; [|done].
      destruct Hc as [->|Hc]; [|lia].
      destruct (Z.ltb_spec (h - 1) 1); [by rewrite lookup_delete_eq | lia].
Qed.

Lemma eat_until_gone_witness :
  db_get (attrs {| attrs := db_set ∅ 1%positive "health" (VInt 2);
                   loc := {[ 1%positive := 2%positive ]} |}) 1%positive "health"
    = Some (VInt 2) /\
  loc (eat_times 2 1%positive 2%positive
         {| attrs := db_set ∅ 1%positive "health" (VInt 2);
            loc := {[ 1%positive := 2%positive ]} |}) !! 1%positive = None.
Proof.
  assert (H : db_get (attrs {| attrs := db_set ∅ 1%positive "health" (VInt 2);
                              loc := {[ 1%positive := 2%positive ]} |}) 1%positive "health"
              = Some (VInt 2)) by reflexivity.
  split; [exact H|].
  exact (proj2 (eat_until_gone 1%positive 2%positive 2 _ 2%Z H)).
Defined.

(** X8.  [drink] never uses an object up as long as it has a ['health']
    attribute: the health goes down by one, below one if need be, and the
    location stays, where the same bite taken with [eat] removes the
    object.  Either way the method falls off its end when the caller has
    a location. *)
Theorem drink_leaves_object :
  forall self caller sc h,
    db_get (attrs sc) self "health" = Some (VInt h) ->
    loc (drink self caller true sc).1.1 = loc sc /\
    db_get (attrs (drink self caller true sc).1.1) self "health" = Some (VInt (h - 1)) /\
    ((h <= 1)%Z -> loc (eat self caller true sc).1.1 !! self = None) /\
    (is_Some (loc sc !! caller) ->
     (drink self caller true sc).1.2 = [Sip (h - 1 <? 1)%Z; SpeciesPrompt caller] /\
     (drink self caller true sc).2 = Ok None).
Proof.
  intros self caller sc h Hh.
  assert (Hd : drink self caller true sc =
               let sc' := {| attrs := db_set (attrs sc) self "health" (VInt (h - 1));
                             loc := loc sc |} in
               match loc sc !! caller with
               | Some _ => (sc', [Sip (h - 1 <? 1)%Z; SpeciesPrompt caller], Ok None)
               | None => (sc', [], Raise AttributeError)
               end).
  { unfold drink. cbn [negb]. rewrite (use_up_health _ _ _ Hh). cbn [attrs].
    rewrite (proj2 (has_true _ self "health")) by (rewrite db_get_set_eq; eauto).
    unfold tell_room. cbn [loc]. by destruct (loc sc !! caller). }
  rewrite Hd. cbv zeta.
  split; [by destruct (loc sc !! caller)|].
  split; [destruct (loc sc !! caller); cbn [fst attrs]; by db_simpl|].
  split.
  - intros Hle. rewrite (eat_held self caller sc h Hh). cbn [loc].
    destruct (Z.ltb_spec (h - 1) 1); [by rewrite lookup_delete_eq | lia].
  - intros [l Hl]. by rewrite Hl.
Qed.

Lemma drink_leaves_object_witness :
  db_get (attrs {| attrs := db_set ∅ 1%positive "health" (VInt 1);
                   loc := {[ 1%positive := 2%positive ]} |}) 1%positive "health"
    = Some (VInt 1) /\
  loc (drink 1%positive 2%positive true
         {| attrs := db_set ∅ 1%positive "health" (VInt 1);
            loc := {[ 1%positive := 2%positive ]} |}).1.1 = {[ 1%positive := 2%positive ]}.
Proof.
  assert (H : db_get (attrs {| attrs := db_set ∅ 1%positive "health" (VInt 1);
                              loc := {[ 1%positive := 2%positive ]} |}) 1%positive "health"
              = Some (VInt 1)) by reflexivity.
  split; [exact H|].
  exact (proj1 (drink_leaves_object 1%positive 2%positive _ 1%Z H)).
Defined.

(** X9.  The species that [drink_callback] stores is at most twenty
    characters long and has no whitespace at either end; an answer of at
    most twenty characters without surrounding whitespace is stored as it
    was typed. *)
Theorem species_setting_trimmed :
  forall user_input,
    (length (species_setting user_input) <= 20)%nat /\
    strip (species_setting user_input) = species_setting user_input /\
    (species_setting user_input = [] \/
     exists c d, head (species_setting user_input) = Some c /\
                 last (species_setting user_input) = Some d /\
                 isspace c = false /\ isspace d = false) /\
    ((length user_input <= 20)%nat -> strip user_input = user_input ->
     species_setting user_input = user_input).
Proof.
  intros x. unfold species_setting. repeat split.
  - pose proof (TextFacts.strip_length (take 20 x)). rewrite length_take in H. lia.
  - apply TextFacts.strip_idem.
  - apply TextFacts.strip_ends.
  - intros Hlen Hs. by rewrite take_ge.
Qed.

Lemma species_setting_trimmed_witness :
  (length (u "red fox") <= 20)%nat /\ strip (u "red fox") = u "red fox" /\
  species_setting (u "red fox") = u "red fox".
Proof.
  assert (H1 : (length (u "red fox") <= 20)%nat) by (vm_compute; lia).
  assert (H2 : strip (u "red fox") = u "red fox") by reflexivity.
  split; [exact H1|]. split; [exact H2|].
  exact (proj2 (proj2 (proj2 (species_setting_trimmed (u "red fox")))) H1 H2).
Defined.

(** X10.  A detail that was set is returned under every key that lowers
    to the same text, so looking details up ignores case; returning a
    detail under any other key is not affected by the setting.  This
    holds whether the object had details before or not. *)
Theorem detail_set_then_returned :
  forall lower details detailkey description key,
    (lower key = lower detailkey ->
     return_detail lower (set_detail lower details detailkey description) key
       = Some description) /\
    (lower key <> lower detailkey ->
     return_detail lower (set_detail lower details detailkey description) key
       = return_detail lower details key).
Proof.
  intros lower details detailkey description key.
  unfold set_detail, return_detail.
  destruct (details_truthy details) eqn:Ht; cbn [details_truthy default from_option];
    unfold id.
  - rewrite bool_decide_eq_true_2 by apply insert_non_empty.
    split; intros Hk.
    + rewrite Hk. apply lookup_insert_eq.
    + by rewrite lookup_insert_ne.
  - rewrite bool_decide_eq_true_2 by (rewrite <- insert_empty; apply insert_non_empty).
    split; intros Hk.
    + rewrite Hk. apply lookup_singleton_eq.
    + by rewrite lookup_singleton_ne.
Qed.

Lemma detail_set_then_returned_witness :
  ascii_lower (u "WINDOW") = ascii_lower (u "Window") /\
  return_detail ascii_lower (set_detail ascii_lower None (u "Window") (u "It is dusty."))
                (u "WINDOW") = Some (u "It is dusty.").
Proof.
  assert (H : ascii_lower (u "WINDOW") = ascii_lower (u "Window")) by reflexivity.
  split; [exact H|].
  exact (proj1 (detail_set_then_returned ascii_lower None (u "Window")
                  (u "It is dusty.") (u "WINDOW")) H).
Defined.

End ThingsFacts.

(* ===================================================================== *)
(** ** The whole pose command                                             *)
(* ===================================================================== *)

Module PoseFuncFacts.

Import PyFacts Pose PoseFacts PoseFunc.

#[local] Arguments isspace : simpl never.

Lemma strip_space s : strip (0x20 :: s) = strip s.
Proof. reflexivity. Qed.

(** X11.  The spacing step is idempotent: a pose text that went through
    it comes out of a second pass unchanged. *)
Theorem glyph_space_idempotent :
  forall text spaced_text,
    glyph_space text = Ok spaced_text ->
    glyph_space spaced_text = Ok spaced_text.
Proof.
  intros text t. rewrite !glyph_space_spaced. intros [= <-]. f_equal.
  destruct text as [|c rest]; [reflexivity|].
  destruct (in_non_space_chars [c]) eqn:E.
  - assert (H : spaced (c :: rest) = c :: rest) by (unfold spaced; by rewrite E).
    by rewrite !H.
  - assert (H : spaced (c :: rest) = 0x20 :: strip (c :: rest))
      by (unfold spaced; by rewrite E).
    rewrite H. unfold spaced. change (in_non_space_chars [0x20]) with false.
    cbv iota. by rewrite strip_space, TextFacts.strip_idem.
Qed.

Lemma glyph_space_idempotent_witness :
  glyph_space (u "  waves. ") = Ok (u " waves.") /\
  glyph_space (u " waves.") = Ok (u " waves.").
Proof.
  assert (H : glyph_space (u "  waves. ") = Ok (u " waves.")) by reflexivity.
  split; [exact H|].
  exact (glyph_space_idempotent _ _ H).
Defined.

Lemma func_no_object name located obj_name access self :
  obj self = None ->
  func name located obj_name access self = pose_line name located self.
Proof.
  intros Ho. unfold func, verb_response, and_then. rewrite Ho.
  destruct (pose_line name located self) as [outs [[]|e]]; cbn [fst snd];
    by rewrite ?app_nil_r.
Qed.

(** X12.  A pose without separator, not run as [try], parses no verb and
    searches nothing, and [func] broadcasts exactly one line to the room:
    the caller's name in its colour markup directly followed by the text
    when the text begins with an ASCII glyph, and followed by one space
    and the stripped text when it begins with none of the sixteen glyphs.
    With empty text nothing is sent at all. *)
Theorem plain_pose_broadcast :
  forall name obj_name access search self,
    ~ occurs sep (args self) ->
    cmdstring self <> u "try" ->
    existsb (ustring_eqb (u "o")) (switches self)
      || existsb (ustring_eqb (u "ooc")) (switches self) = false ->
    (args self = [] ->
     pose_command name true obj_name access search self = (notice self, ([], Ok tt))) /\
    (forall c rest, args self = c :: rest -> c ∈ ascii_glyphs ->
       pose_command name true obj_name access search self =
       (notice self, ([Room (u "|c" ++ name ++ u "|n" ++ args self) false], Ok tt))) /\
    (forall c rest, args self = c :: rest -> c ∉ glyph_chars ->
       pose_command name true obj_name access search self =
       (notice self,
        ([Room (u "|c" ++ name ++ u "|n" ++ u " " ++ strip (args self)) false], Ok tt))).
Proof.
  intros name obj_name access search self Hno Htry Hooc.
  assert (Hcmd : pose_command name true obj_name access search self =
                 (notice self,
                  pose_line name true (updated self (spaced (args self)) None None))).
  { unfold pose_command. rewrite parse_cases. cbv zeta.
    unfold ustring_eqb. rewrite (bool_decide_eq_false_2 _ Htry). cbn [effective_args].
    rewrite (not_occurs_partition _ Hno), app_nil_r.
    by rewrite func_no_object. }
  rewrite Hcmd. unfold pose_line. cbn [updated Pose.args Pose.switches]. rewrite Hooc.
  split; [by intros ->|]. split.
  - intros c rest Ha Hc. rewrite Ha, (spaced_glyph c rest Hc). reflexivity.
  - intros c rest Ha Hc. rewrite Ha, (spaced_other c rest Hc). reflexivity.
Qed.

Lemma plain_pose_broadcast_witness :
  pose_command (u "Rulan") true (fun _ => []) (fun _ _ => false) (fun _ => None)
    (invoke (u "smiles") false) =
  ([], ([Room (u "|c" ++ u "Rulan" ++ u "|n" ++ u " " ++ strip (u "smiles")) false], Ok tt)).
Proof.
  refine (proj2 (proj2 (plain_pose_broadcast (u "Rulan") (fun _ => []) (fun _ _ => false)
                          (fun _ => None) (invoke (u "smiles") false) _ _ _))
            0x73 (u "miles") eq_refl _).
  - apply partition_None. reflexivity.
  - discriminate.
  - reflexivity.
  - unfold glyph_chars. rewrite !elem_of_cons, elem_of_nil.
    intros H. repeat (destruct H as [H|H]; [discriminate H|]). exact H.
Defined.

Lemma func_no_text name located obj_name access self :
  args self = [] ->
  func name located obj_name access self = verb_response name located obj_name access self.
Proof.
  intros Ha. unfold func, pose_line, and_then. rewrite Ha. cbn [truthy fst snd app].
  by destruct (verb_response name located obj_name access self).
Qed.

Lemma partition_appended text :
  Forall (fun c => c <> 0x3A) text ->
  partition sep (text ++ sep) = Some (text, []).
Proof.
  induction 1 as [|c text Hc Ht IH]; [reflexivity|].
  rewrite partition_unfold. cbn [app].
  change (strip_prefix sep (c :: text ++ sep)) with
    (if 0x3A =? c then strip_prefix [0x3A] (text ++ sep) else None).
  destruct (N.eqb_spec 0x3A c) as [Heq|_]; [congruence|]. by rewrite IH.
Qed.

(** X13.  Run as [try] on a text without colon that consists of a verb
    and a noun, or of a verb alone (the noun is then [me]), the command
    searches once for the noun and never broadcasts a pose line: what is
    sent is the response to the verb alone, and nothing at all when the
    search finds no object. *)
Theorem try_sends_verb_response_only :
  forall name located obj_name access search self v noun,
    cmdstring self = u "try" ->
    Forall (fun c => c <> 0x3A) (args self) ->
    (split_ws (args self) = [v; noun] \/
     (split_ws (args self) = [v] /\ noun = u "me")) ->
    pose_command name located obj_name access search self =
      (notice self ++ [CallerSearch noun],
       verb_response name located obj_name access
         (updated self [] (Some v) (search noun))) /\
    (search noun = None ->
     pose_command name located obj_name access search self =
       (notice self ++ [CallerSearch noun], ([], Ok tt))).
Proof.
  intros name located obj_name access search self v noun Htry Hcolon Htok.
  assert (Hcmd : pose_command name located obj_name access search self =
                 (notice self ++ [CallerSearch noun],
                  verb_response name located obj_name access
                    (updated self [] (Some v) (search noun)))).
  { unfold pose_command. rewrite parse_cases. cbv zeta.
    rewrite Htry. change (ustring_eqb (u "try") (u "try")) with true.
    cbn [effective_args]. rewrite (partition_appended _ Hcolon).
    destruct Htok as [Hs|[Hs ->]]; rewrite Hs.
    - by rewrite func_no_text.
    - by rewrite (split_ws_single_strip _ _ Hs), func_no_text. }
  split; [exact Hcmd|].
  intros Hnone. rewrite Hcmd. unfold verb_response. cbn [updated Pose.obj].
  by rewrite Hnone.
Qed.

Lemma try_sends_verb_response_only_witness :
  pose_command (u "Rulan") true (fun _ => u "door") (fun _ _ => true) (fun _ => None)
    (invoke (u "unlock door") true) =
  ([CallerSearch (u "door")], ([], Ok tt)).
Proof.
  refine (proj2 (try_sends_verb_response_only (u "Rulan") true (fun _ => u "door")
                   (fun _ _ => true) (fun _ => None) (invoke (u "unlock door") true)
                   (u "unlock") (u "door") eq_refl _ _) eq_refl).
  - repeat constructor; discriminate.
  - left. reflexivity.
Defined.

End PoseFuncFacts.

(* ===================================================================== *)
(** ** [parse_say], [CmdSay.func] and [CmdOoc.func]                       *)
(* ===================================================================== *)

Module SayCmdFacts.

Import PyFacts TextFacts Say SayFacts SayCmd.

#[local] Arguments isspace : simpl never.

Lemma index_last {A} (l : list A) x :
  last l = Some x -> index l (length l - 1) = Ok x.
Proof.
  unfold index. induction l as [|a l IH]; [done|].
  destruct l as [|b l]; [by intros [= ->]|].
  intros H. specialize (IH H). cbn [length] in *.
  replace (S (S (length l)) - 1)%nat with (S (S (length l) - 1)) by lia.
  exact IH.
Qed.

Lemma startswith_last c (w : ustring) : startswith c w = true -> is_Some (last w).
Proof.
  destruct w as [|x w]; [done|]. intros _.
  destruct (last (x :: w)) eqn:E; [eauto|]. by apply last_None in E.
Qed.

Section WithSearch.

Variable search : ustring -> option ustring.

Lemma parse_words_plain ws :
  Forall (fun w => startswith slash w = false) ws ->
  parse_words search ws = Ok (ws, []).
Proof.
  induction 1 as [|w ws Hw Hws IH]; [reflexivity|].
  cbn [parse_words]. unfold parse_each. rewrite Hw, IH. reflexivity.
Qed.

(** X14.  A text in which no word begins with a slash is said as typed,
    its words joined by single spaces; nothing is searched for; and what
    comes out passes through [parse_say] unchanged. *)
Theorem parse_say_plain_text :
  forall text,
    Forall (fun w => startswith slash w = false) (split_ws text) ->
    parse_say search text = Ok (join (u " ") (split_ws text), []) /\
    parse_say search (join (u " ") (split_ws text)) = Ok (join (u " ") (split_ws text), []).
Proof.
  intros text Hplain.
  assert (Hjoin : split_ws (join (u " ") (split_ws text)) = split_ws text)
    by (apply (split_ws_join 0x20); [reflexivity | apply split_ws_words]).
  unfold parse_say. rewrite Hjoin, (parse_words_plain _ Hplain). by split.
Qed.

End WithSearch.

Lemma parse_say_plain_text_witness :
  Forall (fun w => startswith slash w = false) (split_ws (u " well   met ")) /\
  parse_say (fun _ => None) (u " well   met ") = Ok (u "well met", []).
Proof.
  assert (H : Forall (fun w => startswith slash w = false) (split_ws (u " well   met ")))
    by (repeat constructor).
  split; [exact H|].
  exact (proj1 (parse_say_plain_text (fun _ => None) (u " well   met ") H)).
Defined.

Lemma parse_each_no_match w :
  exists searched, parse_each (fun _ => None) w = Ok (unslash w, searched).
Proof.
  unfold parse_each, unslash.
  destruct (startswith slash w) eqn:Hs; cbn [andb]; [|by eexists].
  destruct (endswith slash w) eqn:He; cbn [andb negb]; [by eexists|].
  destruct (startswith slash (drop 1 w)) eqn:Hd; [by eexists|].
  destruct (startswith_last _ _ Hs) as [x Hx].
  rewrite (index_last _ _ Hx). change (Ok x ≫= ?k) with (k x). cbv beta.
  destruct (bool_decide (x ∈ word_ends)); by eexists.
Qed.

Lemma parse_words_no_match ws :
  exists searched, parse_words (fun _ => None) ws = Ok (map unslash ws, searched).
Proof.
  induction ws as [|w ws [s2 IH]]; [by eexists|].
  destruct (parse_each_no_match w) as [s1 H1].
  cbn [parse_words map]. rewrite H1, IH. by eexists.
Qed.

(** X15.  When no word finds a match, [parse_say] returns and what is
    said is what was typed, word by word with single spaces between,
    except that a word typed with two leading slashes (and no trailing
    one) loses the first: failed lookups leave their slash and their
    punctuation in place. *)
Theorem parse_say_no_match :
  forall text,
    exists searched,
      parse_say (fun _ => None) text =
      Ok (join (u " ") (map unslash (split_ws text)), searched).
Proof.
  intros text. unfold parse_say.
  destruct (parse_words_no_match (split_ws text)) as [s ->]. by eexists.
Qed.

(** X16.  A word typed as a slash, a name and one of the marks [.,!?] is
    looked up without slash and mark, and when the name is found the word
    is said as the display name followed by the mark. *)
Theorem parse_each_match_keeps_mark :
  forall search w mark shown,
    startswith slash w = false ->
    mark ∈ word_ends ->
    search w = Some shown ->
    parse_each search (slash :: w ++ [mark]) = Ok (shown ++ [mark], [w]).
Proof.
  intros search w mark shown Hw Hmark Hfound.
  assert (Hlast : last (slash :: w ++ [mark]) = Some mark)
    by (rewrite app_comm_cons; apply last_snoc).
  assert (Hne : mark <> slash).
  { intros ->. unfold word_ends in Hmark. rewrite !elem_of_cons, elem_of_nil in Hmark.
    unfold slash in Hmark. by repeat (destruct Hmark as [Hmark|Hmark]; [discriminate|]). }
  unfold parse_each. cbn [startswith]. rewrite N.eqb_refl.
  unfold endswith. rewrite Hlast. apply N.eqb_neq in Hne. rewrite Hne.
  cbn [drop].
  assert (Hsw : startswith slash (w ++ [mark]) = false).
  { destruct w as [|x w]; [cbn; exact Hne | exact Hw]. }
  change (drop 0 (w ++ [mark])) with (w ++ [mark]).
  rewrite Hsw, (index_last _ _ Hlast).
  change (Ok mark ≫= ?k) with (k mark). cbv beta.
  rewrite bool_decide_eq_true_2 by exact Hmark.
  assert (Htake : take (length (w ++ [mark]) - 1) (w ++ [mark]) = w).
  { rewrite length_app. cbn [length]. replace (length w + 1 - 1)%nat with (length w) by lia.
    by rewrite take_app_length. }
  by rewrite Htake, Hfound.
Qed.

Lemma parse_each_match_keeps_mark_witness :
  parse_each (fun w => if bool_decide (w = u "ru") then Some (u "Rulan") else None)
             (slash :: u "ru" ++ [0x21]) = Ok (u "Rulan" ++ [0x21], [u "ru"]).
Proof.
  apply parse_each_match_keeps_mark; [reflexivity | | reflexivity].
  unfold word_ends. rewrite !elem_of_cons. tauto.
Defined.

(** X17.  The verb set with the [verb] switch is the verb of every later
    spoken line: setting it stores the stripped text and announces it,
    and a following say without [verb] and [quote] switch builds its
    messages with that verb and the prepend text as it was. *)
Theorem say_verb_set_then_used :
  forall search sw1 v acc1 nm1 sp,
    existsb (ustring_eqb (u "verb")) sw1 = true ->
    strip v <> [] ->
    exists sp1,
      func search (MkCmdSay sw1 v true true acc1 nm1) sp =
        Ok (sp1, [Out (RoomMsg (warms_up (strip v)) false)], []) /\
      say_verb sp1 = Some (strip v) /\
      forall sw2 t acc2 nm2 speech searched,
        existsb (ustring_eqb (u "verb")) sw2 = false ->
        existsb (ustring_eqb (u "quote")) sw2 = false ->
        strip t <> [] ->
        parse_say search (strip t) = Ok (speech, searched) ->
        func search (MkCmdSay sw2 t true true acc2 nm2) sp1 =
          Ok (sp1,
              map Out (say_messages (existsb (ustring_eqb (u "ooc")) sw2) (strip v)
                         (prepend_of sp) speech acc2 nm2),
              searched).
Proof.
  intros search sw1 v acc1 nm1 sp Hverb Hv.
  exists {| say_verb := Some (strip v); quote := quote sp; messages := messages sp |}.
  split; [|split].
  - unfold func, opt. cbn [SayCmd.args SayCmd.here SayCmd.has_char SayCmd.switches andb negb].
    destruct (strip v) as [|c r] eqn:E; [done|]. cbn [truthy negb].
    rewrite Hverb. reflexivity.
  - reflexivity.
  - intros sw2 t acc2 nm2 speech searched Hnv Hnq Ht Hparse.
    unfold func, opt. cbn [SayCmd.args SayCmd.here SayCmd.has_char SayCmd.switches andb negb].
    destruct (strip t) as [|c r] eqn:E; [done|]. cbn [truthy negb].
    rewrite Hnv, Hnq, Hparse. reflexivity.
Qed.

Lemma say_verb_set_then_used_witness :
  exists sp1,
    func (fun _ => None) (MkCmdSay [u "verb"] (u " growls ") true true false [])
         (MkSpeaker None None None) =
      Ok (sp1, [Out (RoomMsg (warms_up (strip (u " growls "))) false)], []) /\
    say_verb sp1 = Some (strip (u " growls ")).
Proof.
  destruct (say_verb_set_then_used (fun _ => None) [u "verb"] (u " growls ") false []
              (MkSpeaker None None None) eq_refl) as (sp1 & H1 & H2 & _).
  - discriminate.
  - exists sp1. by split.
Defined.

(** X18.  A say with the [quote] switch (and without [verb]) never sends
    anything and searches for nothing; it stores the stripped text as the
    character's quote when that is longer than two characters and does
    nothing at all otherwise. *)
Theorem say_quote_is_silent :
  forall search sw t acc nm sp,
    existsb (ustring_eqb (u "verb")) sw = false ->
    existsb (ustring_eqb (u "quote")) sw = true ->
    strip t <> [] ->
    exists sp',
      func search (MkCmdSay sw t true true acc nm) sp = Ok (sp', [], []) /\
      say_verb sp' = say_verb sp /\ messages sp' = messages sp /\
      ((length (strip t) <= 2)%nat -> sp' = sp) /\
      ((2 < length (strip t))%nat -> quote sp' = Some (strip t)).
Proof.
  intros search sw t acc nm sp Hnv Hq Ht.
  unfold func, opt. cbn [SayCmd.args SayCmd.here SayCmd.has_char SayCmd.switches andb negb].
  destruct (strip t) as [|c r] eqn:E; [done|]. cbn [truthy negb].
  rewrite Hnv, Hq.
  destruct (Nat.ltb_spec 2 (length (c :: r))) as [Hlt|Hge];
    eexists; (split; [reflexivity|]); cbn [say_verb messages quote];
    repeat split; try done; lia.
Qed.

Lemma say_quote_is_silent_witness :
  exists sp',
    func (fun _ => None) (MkCmdSay [u "quote"] (u "hi") true true false [])
         (MkSpeaker None None None) = Ok (sp', [], []) /\
    sp' = MkSpeaker None None None.
Proof.
  destruct (say_quote_is_silent (fun _ => None) [u "quote"] (u "hi") false []
              (MkSpeaker None None None) eq_refl eq_refl) as (sp' & H1 & _ & _ & H2 & _).
  - discriminate.
  - exists sp'. split; [exact H1|]. apply H2. vm_compute. lia.
Defined.

(** X19.  An out-of-character remark that, stripped, begins with none of
    the four characters that hand it on to say or pose is broadcast once,
    and the broadcast renders to the tag with the speaker's name followed
    by the stripped text, character for character.  A remark of nothing
    but whitespace only brings up the help. *)
Theorem ooc_remark_broadcast :
  forall args0 acc nm,
    (strip args0 = [] -> ooc_func args0 true acc nm = Ok [AccountExecute (u "help ooc")]) /\
    (forall c rest,
        strip args0 = c :: rest ->
        c <> dquote -> c <> 0x27 -> c <> 0x3A -> c <> 0x3B ->
        exists text others,
          ooc_func args0 true acc nm = Ok (RoomMsg text false :: others) /\
          Forall (fun o => match o with RoomMsg _ _ => False | _ => True end) others /\
          forall mapping shown,
            mapping !! u "char" = Some shown ->
            format mapping text = inr (u "[OOC " ++ shown ++ u "] " ++ strip args0)).
Proof.
  intros args0 acc nm. unfold ooc_func. split.
  - by intros ->.
  - intros c rest Hs H1 H2 H3 H4. rewrite Hs. cbn [truthy negb index nth_error].
    change (Ok c ≫= ?k) with (k c). cbv beta.
    apply N.eqb_neq in H1, H2, H3, H4. rewrite H1, H2, H3, H4. cbn [orb].
    eexists _, _. split; [reflexivity|]. split.
    + destruct acc; repeat constructor.
    + intros mapping shown Hm. by apply ooc_room_format.
Qed.

Lemma ooc_remark_broadcast_witness :
  exists text others,
    ooc_func (u " brb {soon} ") true false [] = Ok (RoomMsg text false :: others) /\
    Forall (fun o => match o with RoomMsg _ _ => False | _ => True end) others /\
    forall mapping shown,
      mapping !! u "char" = Some shown ->
      format mapping text = inr (u "[OOC " ++ shown ++ u "] " ++ strip (u " brb {soon} ")).
Proof.
  apply (proj2 (ooc_remark_broadcast (u " brb {soon} ") false []) 0x62 (u "rb {soon}"));
    [reflexivity | discriminate..].
Defined.

End SayCmdFacts.

(* ===================================================================== *)
(** ** [CmdSpoof.func]: who gets what                                     *)
(* ===================================================================== *)

Module SpoofMoreFacts.

Import PyFacts TextFacts Say SayFacts SpoofFacts.

#[local] Arguments isspace : simpl never.

Lemma rstrip_escape_braces s : rstrip (escape_braces (rstrip s)) = escape_braces (rstrip s).
Proof.
  unfold escape_braces.
  rewrite (rstrip_replace_char rbrace _ eq_refl), (rstrip_replace_char lbrace _ eq_refl).
  by rewrite rstrip_idem.
Qed.

Lemma rstrip_code s : rstrip (u "<code>" ++ s ++ u "</code>") = u "<code>" ++ s ++ u "</code>".
Proof.
  assert (H : rstrip (s ++ u "</code>") = s ++ u "</code>")
    by (by rewrite rstrip_app_cons).
  rewrite rstrip_app_cons; rewrite H; [done|]. by destruct s.
Qed.

Lemma repeat_space_plain n :
  forallb (fun c => negb (is_brace c)) (repeat 0x20 n) = true.
Proof. induction n as [|n IH]; [done|]. cbn [repeat forallb]. by rewrite IH. Qed.

Lemma spaces_plain maxsize allocates n pad :
  spaces maxsize allocates n = Ok pad ->
  forallb (fun c => negb (is_brace c)) pad = true.
Proof.
  unfold spaces. destruct (_ || _)%Z; [discriminate|].
  destruct (n <=? 0)%Z; [by intros [= <-]|].
  destruct (allocates n); [|discriminate].
  intros [= <-]. apply repeat_space_plain.
Qed.

Section WithFramework.

Variable strip_ansi : ustring -> ustring.
Variable justify : ustring -> Z -> ustring -> Z -> ustring.
Variable maxsize : Z.
Variable allocates : Z -> bool.

(** X20.  A spoof with the [self] switch, or by a character without a
    location, is never broadcast: whatever the other switches, every
    message goes to the character alone.  Without the switch and with a
    location no message goes to the character alone. *)
Theorem spoof_to_self_is_private :
  forall self outs,
    func strip_ansi justify maxsize allocates self = Ok outs ->
    (has_switch "self" self || negb (here self) = true ->
     Forall (fun o => match o with
                      | RoomMsg _ _ | HereMsg _ => False
                      | _ => True
                      end) outs) /\
    (has_switch "self" self || negb (here self) = false ->
     Forall (fun o => match o with
                      | CharMsg _ _ => False
                      | _ => True
                      end) outs).
Proof.
  intros self outs Hf. unfold func, emit in Hf.
  destruct (has_switch "self" self || negb (here self)) eqn:Hto.
  all: split; intros Hc; try discriminate Hc; clear Hc.
  all: destruct (negb (truthy (args self)));
    [injection Hf as <-; by repeat constructor|].
  all: destruct (has_switch "indent" self);
    [rewrite indent_param_value in Hf;
     change (Ok ?a ≫= ?k) with (k a) in Hf; cbv beta in Hf;
     destruct (spaces maxsize allocates _) as [pad|e]; [|discriminate Hf];
     injection Hf as <-; by repeat constructor|].
  all: destruct (has_switch "right" self || has_switch "center" self
                 || has_switch "news" self);
    [destruct (justify_params_returns (rhs self)) as [[w i] Hp]; rewrite Hp in Hf;
     injection Hf as <-; apply Forall_map, Forall_forall; by intros|].
  all: destruct (has_switch "strip" self);
    [injection Hf as <-; by repeat constructor|].
  all: destruct (existsb _ _); injection Hf as <-; by repeat constructor.
Qed.

(** X21.  Unless the [indent] switch is given, no message of a spoof ends
    in whitespace, to the room or to the character. *)
Theorem spoof_messages_end_trimmed :
  forall self outs,
    func strip_ansi justify maxsize allocates self = Ok outs ->
    has_switch "indent" self = false ->
    Forall (fun o => match o with
                     | RoomMsg text _ | HereMsg text | CharMsg text _ => rstrip text = text
                     | AccountExecute _ => True
                     end) outs.
Proof.
  intros self outs Hf Hind. unfold func in Hf. rewrite Hind in Hf.
  destruct (negb (truthy (args self))); [injection Hf as <-; by repeat constructor|].
  unfold emit in Hf.
  destruct (has_switch "right" self || has_switch "center" self || has_switch "news" self).
  { destruct (justify_params_returns (rhs self)) as [[w i] Hp]. rewrite Hp in Hf.
    injection Hf as <-. apply Forall_map, Forall_forall. intros text _. cbn.
    destruct (has_switch "self" self || negb (here self));
      [apply rstrip_idem | apply rstrip_escape_braces]. }
  destruct (has_switch "strip" self).
  { injection Hf as <-. repeat constructor.
    destruct (has_switch "self" self || negb (here self));
      [apply rstrip_idem | apply rstrip_escape_braces]. }
  destruct (existsb _ _); injection Hf as <-; repeat constructor;
    destruct (has_switch "self" self || negb (here self));
    first [apply rstrip_code | apply rstrip_idem | apply rstrip_escape_braces].
Qed.

(** X22.  Whatever is typed, a spoof that is broadcast with any of the
    switches, or under a command name without a dot, reads as plain text
    to the placeholder substitution of the broadcast: no brace in it
    opens a placeholder, so the broadcast cannot fail on a binding. *)
Theorem spoof_broadcast_has_no_placeholder :
  forall self outs,
    func strip_ansi justify maxsize allocates self = Ok outs ->
    (has_switch "indent" self || has_switch "right" self || has_switch "center" self
       || has_switch "news" self || has_switch "strip" self = true
     \/ existsb (N.eqb 0x2E) (cmdstring self) = false) ->
    Forall (fun o => match o with
                     | RoomMsg text _ =>
                         exists shown, forall mapping, format mapping text = inr shown
                     | _ => True
                     end) outs.
Proof.
  intros self outs Hf Hmode. unfold func in Hf.
  destruct (negb (truthy (args self))); [injection Hf as <-; by repeat constructor|].
  unfold emit in Hf.
  destruct (has_switch "indent" self).
  { rewrite indent_param_value in Hf.
    change (Ok ?a ≫= ?k) with (k a) in Hf. cbv beta in Hf.
    destruct (spaces maxsize allocates _) as [pad|e] eqn:Hpad; [|discriminate Hf].
    injection Hf as <-. repeat constructor.
    destruct (has_switch "self" self || negb (here self)); [done|].
    eexists. intros mapping. apply renders_format, renders_app;
      [apply renders_plain, (spaces_plain _ _ _ _ Hpad) | apply renders_escaped]. }
  destruct (has_switch "right" self || has_switch "center" self || has_switch "news" self)
    eqn:Hj.
  { destruct (justify_params_returns (rhs self)) as [[w i] Hp]. rewrite Hp in Hf.
    injection Hf as <-. apply Forall_map, Forall_forall. intros text _. cbn.
    destruct (has_switch "self" self || negb (here self)); [done|].
    eexists. intros mapping. apply renders_format, renders_escaped. }
  destruct (has_switch "strip" self) eqn:Hs.
  { injection Hf as <-. repeat constructor.
    destruct (has_switch "self" self || negb (here self)); [done|].
    eexists. intros mapping. apply renders_format, renders_escaped. }
  destruct (existsb _ _) eqn:Hdot.
  { exfalso. destruct Hmode as [Hm|Hm]; [|done].
    cbn [orb] in Hm. rewrite !orb_false_r in Hm.
    apply orb_false_iff in Hj as [Hj1 Hj3]. apply orb_false_iff in Hj1 as [Hj1 Hj2].
    by rewrite Hj1, Hj2, Hj3 in Hm. }
  injection Hf as <-. repeat constructor.
  destruct (has_switch "self" self || negb (here self)); [done|].
  eexists. intros mapping. apply renders_format, renders_escaped.
Qed.

End WithFramework.

Lemma spoof_to_self_is_private_witness :
  func (fun s => s) (fun s _ _ _ => s) (2 ^ 63 - 1)%Z (fun _ => true)
       (MkCmdSpoof (u "spoof") [u "self"] (u " boo") (u "boo") (u "boo") None true)
    = Ok [CharMsg (u "boo") false] /\
  Forall (fun o => match o with
                   | RoomMsg _ _ | HereMsg _ => False
                   | _ => True
                   end) [CharMsg (u "boo") false].
Proof.
  assert (H : func (fun s => s) (fun s _ _ _ => s) (2 ^ 63 - 1)%Z (fun _ => true)
                (MkCmdSpoof (u "spoof") [u "self"] (u " boo") (u "boo") (u "boo") None true)
              = Ok [CharMsg (u "boo") false]) by reflexivity.
  split; [exact H|].
  exact (proj1 (spoof_to_self_is_private (fun s => s) (fun s _ _ _ => s) _ (fun _ => true) _ _ H) eq_refl).
Defined.

Lemma spoof_messages_end_trimmed_witness :
  Forall (fun o => match o with
                   | RoomMsg text _ | HereMsg text | CharMsg text _ => rstrip text = text
                   | AccountExecute _ => True
                   end)
         [RoomMsg (u "a {{b}}") false].
Proof.
  apply (spoof_messages_end_trimmed (fun s => s) (fun s _ _ _ => s)
           (2 ^ 63 - 1)%Z (fun _ => true)
           (MkCmdSpoof (u "spoof") [] (u " a {b}  ") (u "a {b}  ") (u "a {b}  ") None true));
    reflexivity.
Defined.

Lemma spoof_broadcast_has_no_placeholder_witness :
  Forall (fun o => match o with
                   | RoomMsg text _ =>
                       exists shown, forall mapping, format mapping text = inr shown
                   | _ => True
                   end)
         [RoomMsg (u "a {{b}}") false].
Proof.
  apply (spoof_broadcast_has_no_placeholder (fun s => s) (fun s _ _ _ => s)
           (2 ^ 63 - 1)%Z (fun _ => true)
           (MkCmdSpoof (u "spoof") [] (u " a {b}  ") (u "a {b}  ") (u "a {b}  ") None true));
    [reflexivity | right; reflexivity].
Defined.

End SpoofMoreFacts.

(* ===================================================================== *)
(** ** Looking at contents; justified spoofs with well-formed parameters  *)
(* ===================================================================== *)

Module LookFacts.

Import Objects Things.

Lemma sort_loop viewer l exits users things :
  Forall (fun con => visible viewer con = true) l ->
  fold_left
    (fun '(exits, users, things) con =>
       if destination con then (exits ++ [con], users, things)
       else if has_player con then (exits, users ++ [con], things)
       else (exits, users, things ++ [con]))
    l (exits, users, things) =
  (exits ++ List.filter (is_exit viewer) l,
   users ++ List.filter (is_user viewer) l,
   things ++ List.filter (is_thing viewer) l).
Proof.
  intros Hl. revert exits users things.
  induction Hl as [|con l Hv Hl IH]; intros exits users things.
  - cbn. by rewrite !app_nil_r.
  - cbn [fold_left List.filter]. unfold is_exit, is_user, is_thing. rewrite Hv.
    destruct (destination con), (has_player con); cbn [andb negb];
      rewrite IH, <- ?app_assoc; reflexivity.
Qed.

Lemma filter_filter_implied {A} (p q : A -> bool) l :
  (forall x, p x = true -> q x = true) ->
  List.filter p (List.filter q l) = List.filter p l.
Proof.
  intros Hpq. induction l as [|x l IH]; [done|]. cbn [List.filter].
  destruct (q x) eqn:Hq; cbn [List.filter].
  - by rewrite IH.
  - destruct (p x) eqn:Hp; [|exact IH]. rewrite (Hpq x Hp) in Hq. discriminate.
Qed.

Lemma Forall_filter_true {A} (q : A -> bool) l :
  Forall (fun x => q x = true) (List.filter q l).
Proof.
  induction l as [|x l IH]; [constructor|]. cbn [List.filter].
  destruct (q x) eqn:Hq; [by constructor | exact IH].
Qed.

(** X23.  Looking at an object sorts its contents into exits, users and
    things: each content that is not the viewer and that the viewer may
    view lands in exactly one of the three lists, an exit always among
    the exits even when it has a player, in the order of the contents;
    the viewer and what the viewer may not view appear in none. *)
Theorem look_sorts_contents :
  forall viewer contents,
    sort_contents viewer contents =
      (List.filter (is_exit viewer) contents,
       List.filter (is_user viewer) contents,
       List.filter (is_thing viewer) contents) /\
    (forall con,
       (if is_exit viewer con then 1 else 0) + (if is_user viewer con then 1 else 0)
       + (if is_thing viewer con then 1 else 0)
       = if visible viewer con then 1 else 0)%nat /\
    (forall con, con_id con = viewer ->
       is_exit viewer con = false /\ is_user viewer con = false /\
       is_thing viewer con = false).
Proof.
  intros viewer contents. split; [|split].
  - unfold sort_contents.
    rewrite (sort_loop viewer _ [] [] []) by apply Forall_filter_true.
    cbn [app]. rewrite !filter_filter_implied; [done|..];
      intros x; unfold is_exit, is_user, is_thing; by destruct (visible viewer x).
  - intros con. unfold is_exit, is_user, is_thing.
    by destruct (visible viewer con), (destination con), (has_player con).
  - intros con Hid. unfold is_exit, is_user, is_thing, visible.
    rewrite bool_decide_eq_true_2 by exact Hid. by cbn.
Qed.

Lemma look_sorts_contents_witness :
  con_id (MkContent 1%positive true true true) = 1%positive /\
  is_exit 1%positive (MkContent 1%positive true true true) = false.
Proof.
  assert (H : con_id (MkContent 1%positive true true true) = 1%positive) by reflexivity.
  split; [exact H|].
  exact (proj1 (proj2 (proj2 (look_sorts_contents 1%positive [])) _ H)).
Defined.

End LookFacts.

Module JustifyFacts.

Import Say SpoofFacts.

Lemma decimal_acc s acc :
  fold_left (fun acc c => (10 * acc + Z.of_N (c - 0x30))%Z) s acc =
  (acc * 10 ^ Z.of_nat (length s) + decimal s)%Z.
Proof.
  unfold decimal. revert acc. induction s as [|c s IH]; intros acc.
  - cbn. lia.
  - cbn [fold_left length]. rewrite IH, (IH (10 * 0 + Z.of_N (c - 48))%Z).
    rewrite Nat2Z.inj_succ, Z.pow_succ_r by lia. lia.
Qed.

Lemma decimal_cons c s :
  decimal (c :: s) = (Z.of_N (c - 0x30) * 10 ^ Z.of_nat (length s) + decimal s)%Z.
Proof.
  unfold decimal at 1. cbn [fold_left]. rewrite decimal_acc. f_equal; lia.
Qed.

Lemma decimal_bound s :
  digits s -> (0 <= decimal s < 10 ^ Z.of_nat (length s))%Z.
Proof.
  unfold digits. induction s as [|c s IH]; [cbn; lia|].
  cbn [forallb]. intros [Hc Hs]%andb_true_iff. specialize (IH Hs).
  rewrite decimal_cons. cbn [length]. rewrite Nat2Z.inj_succ, Z.pow_succ_r by lia.
  unfold is_digit in Hc. apply andb_true_iff in Hc as [H1 H2].
  apply N.leb_le in H1, H2. nia.
Qed.

(** Digit strings of equal length are ordered as the numbers they spell. *)
Lemma str_lt_decimal a b :
  length a = length b -> digits a -> digits b ->
  str_lt a b = (decimal a <? decimal b)%Z.
Proof.
  revert b. induction a as [|x a IH]; intros [|y b] Hlen Ha Hb; try done.
  injection Hlen as Hlen.
  pose proof Ha as Ha'. pose proof Hb as Hb'. unfold digits in Ha', Hb'.
  cbn [forallb] in Ha', Hb'.
  apply andb_true_iff in Ha' as [Hx Ha'], Hb' as [Hy Hb'].
  pose proof (decimal_bound a Ha') as Ba. pose proof (decimal_bound b Hb') as Bb.
  rewrite !decimal_cons, <- Hlen in *. cbn [str_lt].
  unfold is_digit in Hx, Hy.
  apply andb_true_iff in Hx as [Hx1 Hx2], Hy as [Hy1 Hy2].
  apply N.leb_le in Hx1, Hx2, Hy1, Hy2.
  destruct (N.ltb_spec x y) as [Hxy|Hxy].
  - symmetry. apply Z.ltb_lt. nia.
  - destruct (N.ltb_spec y x) as [Hyx|Hyx].
    + symmetry. apply Z.ltb_ge. nia.
    + assert (x = y) as -> by lia. rewrite (IH b Hlen Ha' Hb').
      destruct (Z.ltb_spec (decimal a) (decimal b)); symmetry;
        [apply Z.ltb_lt | apply Z.ltb_ge]; lia.
Qed.

(** X24.  When the first two parameters of a justified spoof spell numbers
    with equally many digits, the larger number becomes the width and the
    smaller the indent, so the indent does not exceed the width. *)
Theorem justify_params_equal_digits :
  forall r a b rest,
    split_ws r = a :: b :: rest ->
    sub_nondigits a <> [] ->
    length (sub_nondigits a) = length (sub_nondigits b) ->
    justify_params (Some r) =
      Ok (Z.max (decimal (sub_nondigits a)) (decimal (sub_nondigits b)),
          Z.min (decimal (sub_nondigits a)) (decimal (sub_nondigits b))).
Proof.
  intros r a b rest Hs Ha Hlen.
  assert (Hb : sub_nondigits b <> []).
  { intros Hb. rewrite Hb in Hlen. by destruct (sub_nondigits a). }
  unfold justify_params. rewrite parameters_split_ws, Hs.
  assert (Hcmp : str_lt (sub_nondigits a) (sub_nondigits b)
                 = (decimal (sub_nondigits a) <? decimal (sub_nondigits b))%Z)
    by (apply str_lt_decimal; [exact Hlen | apply sub_nondigits_digits..]).
  assert (Hcmp' : str_lt (sub_nondigits b) (sub_nondigits a)
                  = (decimal (sub_nondigits b) <? decimal (sub_nondigits a))%Z)
    by (apply str_lt_decimal; [by symmetry | apply sub_nondigits_digits..]).
  assert (Hia : int (PStr (sub_nondigits a)) = Ok (decimal (sub_nondigits a))).
  { unfold int. rewrite sub_nondigits_digits. by destruct (sub_nondigits a). }
  assert (Hib : int (PStr (sub_nondigits b)) = Ok (decimal (sub_nondigits b))).
  { unfold int. rewrite sub_nondigits_digits. by destruct (sub_nondigits b). }
  assert (Hoa : or_int (sub_nondigits a) 0 = PStr (sub_nondigits a))
    by (unfold or_int; by destruct (sub_nondigits a)).
  assert (Hob : or_int (sub_nondigits b) 0 = PStr (sub_nondigits b))
    by (unfold or_int; by destruct (sub_nondigits b)).
  assert (Hres :
    (w ← int (py_max (or_int (sub_nondigits a) 0) (or_int (sub_nondigits b) 0));
     i ← int (py_min (or_int (sub_nondigits a) 0) (or_int (sub_nondigits b) 0));
     Ok (w, i)) =
    Ok (Z.max (decimal (sub_nondigits a)) (decimal (sub_nondigits b)),
        Z.min (decimal (sub_nondigits a)) (decimal (sub_nondigits b)))).
  { rewrite Hoa, Hob. unfold py_max, py_min. cbn [py_lt]. rewrite Hcmp, Hcmp'.
    destruct (Z.ltb_spec (decimal (sub_nondigits a)) (decimal (sub_nondigits b)));
      destruct (Z.ltb_spec (decimal (sub_nondigits b)) (decimal (sub_nondigits a)));
      rewrite ?Hia, ?Hib; cbn -[decimal sub_nondigits Z.max Z.min];
      rewrite ?Hia, ?Hib; cbn -[decimal sub_nondigits Z.max Z.min];
      f_equal; f_equal; lia. }
  destruct rest as [|x rest]; cbn -[int py_max py_min or_int sub_nondigits decimal Z.max Z.min];
    exact Hres.
Qed.

Lemma justify_params_equal_digits_witness :
  justify_params (Some (u "w20 72"))
  = Ok (Z.max (decimal (sub_nondigits (u "w20"))) (decimal (sub_nondigits (u "72"))),
        Z.min (decimal (sub_nondigits (u "w20"))) (decimal (sub_nondigits (u "72")))).
Proof.
  apply (justify_params_equal_digits (u "w20 72") (u "w20") (u "72") []);
    [reflexivity | discriminate | reflexivity].
Defined.

End JustifyFacts.
